(** * basictracer-javascript: the tracer, the span and the propagation model

    The development follows the layout of the repository:

    - [JS]      the fragment of JavaScript values the tracer inspects;
    - [Effect]  calls to collaborators ([Sampler], [Recorder], the two
                propagators, the clock) as a small free monad with an
                interpreter that threads a world state and keeps the trace
                of calls;
    - [Tracer]  [src/tracer.js], method by method;
    - [Span]    [BasicSpan], method by method;
    - the identity model, the sampler and the two carrier codecs, which the
      tracer imports from modules that are not part of the sources and which
      are therefore modelled from the specification. *)

From Stdlib Require Import ZArith NArith String Ascii List Lia.
From Stdlib Require Strings.Byte.
From Stdlib Require Import QArith DecimalString DecimalN DecimalPos.
From stdpp Require Import base option list strings gmap.

(** ** Objects of the tracer that a JavaScript value may refer to *)

(** [sampler || new Sampler()]: a collaborator is either the one the caller
    supplied (named by a handle) or the default instance. *)
Inductive Collaborator : Type :=
| DefaultInstance
| Supplied (handle : nat).

(** The OpenTracing interface object installed by [setInterface]; only its
    two format tokens are read.  The tokens are strings, as the interface
    defines them, and are compared with [===]. *)
Record Interface : Type := mkInterface {
  FORMAT_TEXT_MAP : string;
  FORMAT_BINARY : string
}.

(** [BasicTracer]'s own properties.  The two propagators are built from
    [this] in the constructor and carry no other data, so a call to one of
    them is identified by the tracer that owns it. *)
Record BasicTracer : Type := mkTracer {
  _sampler : Collaborator;
  _recorder : Collaborator;
  _interface : option Interface
}.

(** [BasicSpan]'s own properties: the constructor assigns [_tracer] and
    nothing else. *)
Record BasicSpan : Type := mkSpan {
  _tracer : BasicTracer
}.

Module JS.

#[local] Set Warnings "-register-all".

(** Errors: the TypeError of the language, the failures the specification
    names, and [UserError] for whatever code outside the tracer throws. *)
Inductive Error : Type :=
| TypeError
| UnsupportedFormat
| MalformedCarrier
| InvalidBaggageKey
| UseAfterFinish
| UserError (message : string).

(** Values: primitives, objects as property lists (first binding of a name
    wins on lookup), functions, and instances of the two classes.

    An [Object] is an ordinary one: every property can be assigned.  A
    [Restricted] object has properties that cannot: those named in
    [readonly] (a non-writable data property, or an accessor without a
    setter, which reads as the value its getter returns) and, when the
    object is not [extensible], every property it does not have yet.
    [Object.freeze(o)] is the restricted object that is not extensible and
    has all its properties read-only.

    A function is summarised by the completion of a call without
    arguments: [Function r] returns [r], [Thrower e] throws [e].  Reading
    a property runs no code: an accessor reads as a value. *)
Inductive Value : Type :=
| Undefined
| Null
| Bool (b : bool)
| Number (n : Z)
| Str (s : string)
| Object (props : list (string * Value))
| Function (result : Value)
| SpanRef (s : BasicSpan)
| TracerRef (t : BasicTracer)
| Restricted (extensible : bool) (readonly : list string)
             (props : list (string * Value))
| Thrower (e : Error).

(** Completion of a call: a value or a thrown error. *)
Inductive Outcome (A : Type) : Type :=
| Return (a : A)
| Raise (e : Error).
Arguments Return {A} a.
Arguments Raise {A} e.

(** ToBoolean. *)
Definition truthy (v : Value) : bool :=
  match v with
  | Undefined | Null => false
  | Bool b => b
  | Number n => negb (n =? 0)%Z
  | Str s => negb (String.eqb s EmptyString)
  | Object _ | Function _ | SpanRef _ | TracerRef _
  | Restricted _ _ _ | Thrower _ => true
  end.

Definition typeof (v : Value) : string :=
  match v with
  | Undefined => "undefined"
  | Null => "object"
  | Bool _ => "boolean"
  | Number _ => "number"
  | Str _ => "string"
  | Object _ | SpanRef _ | TracerRef _ | Restricted _ _ _ => "object"
  | Function _ | Thrower _ => "function"
  end.

Fixpoint assoc (name : string) (props : list (string * Value)) : Value :=
  match props with
  | [] => Undefined
  | (k, v) :: rest => if String.eqb k name then v else assoc name rest
  end.

(** The methods [BasicSpan.prototype] provides: [tracer()] returns the
    tracer, every other method has an empty body. *)
Definition span_method (s : BasicSpan) (name : string) : Value :=
  if String.eqb name "tracer" then Function (TracerRef (_tracer s))
  else if existsb (String.eqb name)
            ["setOperationName"; "setTag"; "addTags"; "setBaggageItem";
             "getBaggageItem"; "log"; "finish"]
  then Function Undefined
  else Undefined.

(** [v.name]: a TypeError on [undefined] and [null], [undefined] for a
    property a value does not have. *)
Definition get (v : Value) (name : string) : Outcome Value :=
  match v with
  | Undefined | Null => Raise TypeError
  | Object props | Restricted _ _ props => Return (assoc name props)
  | SpanRef s =>
      Return (if String.eqb name "_tracer" then TracerRef (_tracer s)
              else span_method s name)
  | Bool _ | Number _ | Str _ | Function _ | TracerRef _ | Thrower _ =>
      Return Undefined
  end.

Fixpoint update (name : string) (x : Value) (props : list (string * Value))
  : list (string * Value) :=
  match props with
  | [] => [(name, x)]
  | (k, v) :: rest =>
      if String.eqb k name then (k, x) :: rest
      else (k, v) :: update name x rest
  end.

(** Whether the property list binds [name]. *)
Definition has (name : string) (props : list (string * Value)) : bool :=
  existsb (fun kv => String.eqb kv.1 name) props.

(** [v.name = x] in strict mode ([tracer.js] starts with ['use strict']),
    for the values an assignment of this program can reach: objects.  On
    an ordinary object the property is written.  On a restricted one the
    assignment throws a TypeError when the property is read-only, or is
    missing from an object that is not extensible.  Anything else is a
    TypeError. *)
Definition set (v : Value) (name : string) (x : Value) : Outcome Value :=
  match v with
  | Object props => Return (Object (update name x props))
  | Restricted extensible readonly props =>
      if existsb (String.eqb name) readonly then Raise TypeError
      else if has name props || extensible
      then Return (Restricted extensible readonly (update name x props))
      else Raise TypeError
  | _ => Raise TypeError
  end.

(** [Object.freeze] of an object with the properties [props]. *)
Definition frozen (props : list (string * Value)) : Value :=
  Restricted false (map fst props) props.

(** [f()]: the function's completion; a TypeError when [f] is no
    function. *)
Definition call0 (f : Value) : Outcome Value :=
  match f with
  | Function r => Return r
  | Thrower e => Raise e
  | _ => Raise TypeError
  end.

(** [v === "token"]. *)
Definition strict_eq_string (v : Value) (token : string) : bool :=
  match v with
  | Str s => String.eqb s token
  | _ => false
  end.

End JS.

Module Effect.
Import JS.

(** Calls that leave the tracer: each is answered by a collaborator with
    a value or an error. *)
Inductive Call : Type :=
| DateNow
| SamplerIsSample (sampler : Collaborator) (span parent : Value)
| RecorderRecord (recorder : Collaborator) (span : Value)
| TextMapInject (owner : BasicTracer) (span carrier : Value)
| TextMapJoin (owner : BasicTracer) (operationName carrier : Value)
| BinaryInject (owner : BasicTracer) (span carrier : Value)
| BinaryJoin (owner : BasicTracer) (operationName carrier : Value).

Inductive Prog (A : Type) : Type :=
| Ret (a : A)
| Throw (e : Error)
| Vis (c : Call) (k : Value -> Prog A).
Arguments Ret {A} a.
Arguments Throw {A} e.
Arguments Vis {A} c k.

Fixpoint bind {A B} (p : Prog A) (f : A -> Prog B) : Prog B :=
  match p with
  | Ret a => f a
  | Throw e => Throw e
  | Vis c k => Vis c (fun v => bind (k v) f)
  end.

Definition lift {A} (o : Outcome A) : Prog A :=
  match o with
  | Return a => Ret a
  | Raise e => Throw e
  end.

Definition call (c : Call) : Prog Value := Vis c Ret.

(** A collaborator environment over a world [W]. *)
Definition Handler (W : Type) : Type := Call -> W -> Outcome Value * W.

(** Result of a run: the completion, the final world and the calls made,
    in order. *)
Record Run (W A : Type) : Type := mkRun {
  outcome : Outcome A;
  world : W;
  trace : list Call
}.
Arguments mkRun {W A} outcome world trace.
Arguments outcome {W A} r.
Arguments world {W A} r.
Arguments trace {W A} r.

Fixpoint run {W A} (h : Handler W) (p : Prog A) (w : W) : Run W A :=
  match p with
  | Ret a => mkRun (Return a) w []
  | Throw e => mkRun (Raise e) w []
  | Vis c k =>
      match h c w with
      | (Return v, w') =>
          let r := run h (k v) w' in
          mkRun (outcome r) (world r) (c :: trace r)
      | (Raise e, w') => mkRun (Raise e) w' [c]
      end
  end.

End Effect.

(** [Prog] is a monad in stdpp's sense, so programs are written with
    [x ← p; q] and [p;; q]. *)
#[global] Instance prog_ret : MRet Effect.Prog := @Effect.Ret.
#[global] Instance prog_bind : MBind Effect.Prog :=
  fun A B f p => Effect.bind p f.

(** ** [src/tracer.js] *)
Module Tracer.
Import JS Effect.

(** [constructor({sampler, recorder} = {})] *)
Definition new (sampler recorder : option nat) : BasicTracer :=
  {| _sampler := from_option Supplied DefaultInstance sampler;
     _recorder := from_option Supplied DefaultInstance recorder;
     _interface := None |}.

(** [setInterface(inf) { this._interface = inf }] *)
Definition setInterface (this : BasicTracer) (inf : Interface) : BasicTracer :=
  {| _sampler := _sampler this;
     _recorder := _recorder this;
     _interface := Some inf |}.

(** [this._interface.X]: a TypeError while no interface is installed. *)
Definition interface_token (this : BasicTracer) (field : Interface -> string)
  : Prog string :=
  match _interface this with
  | Some inf => Ret (field inf)
  | None => Throw TypeError
  end.

(** [new BasicSpan(tracer, {operationName, startTime = Date.now(), context, tags})]:
    the parameter is destructured property by property, the default of
    [startTime] reads the clock, and the body keeps the tracer only. *)
Definition BasicSpan_new (tracer : BasicTracer) (arg : Value) : Prog BasicSpan :=
  operationName ← lift (get arg "operationName");
  given ← lift (get arg "startTime");
  startTime ← (match given with
                | Undefined => call DateNow
                | _ => Ret given
                end);
  context ← lift (get arg "context");
  tags ← lift (get arg "tags");
  Ret {| _tracer := tracer |}.

(** The first statement of [startSpan]:
    [if (fields.parent && typeof fields.parent.imp === 'function')
       fields.parent = fields.parent.imp()]. *)
Definition resolve_parent (fields : Value) : Prog Value :=
  parent ← lift (get fields "parent");
  if truthy parent then
    imp ← lift (get parent "imp");
    if String.eqb (typeof imp) "function" then
      parent' ← lift (call0 imp);
      lift (set fields "parent" parent')
    else Ret fields
  else Ret fields.

(** The object literal handed to the constructor. *)
Definition span_fields (fields : Value) : Prog Value :=
  operationName ← lift (get fields "operationName");
  parent ← lift (get fields "parent");
  startTime ← lift (get fields "startTime");
  tags ← lift (get fields "tags");
  Ret (Object [("operationName", operationName); ("parent", parent);
               ("startTime", startTime); ("tags", tags)]).

(** The body of [startSpan(fields)] with the class it instantiates as a
    parameter, so that what [new] receives can be stated.  The caller's
    [fields] object is updated in place, so its new state is returned
    along with the span. *)
Definition startSpan_with {S : Type}
    (construct : BasicTracer -> Value -> Prog S)
    (this : BasicTracer) (fields : Value) : Prog (S * Value) :=
  fields' ← resolve_parent fields;
  arg ← span_fields fields';
  span ← construct this arg;
  Ret (span, fields').

(** [startSpan(fields)]: the class is [BasicSpan]. *)
Definition startSpan (this : BasicTracer) (fields : Value)
  : Prog (BasicSpan * Value) :=
  startSpan_with BasicSpan_new this fields.

(** [inject(span, format, carrier)]: the text-map propagator, else the
    binary one, else nothing; the method returns no value. *)
Definition inject (this : BasicTracer) (span format carrier : Value)
  : Prog Value :=
  text ← interface_token this FORMAT_TEXT_MAP;
  if strict_eq_string format text then
    call (TextMapInject this span carrier) ;; Ret Undefined
  else
    binary ← interface_token this FORMAT_BINARY;
    if strict_eq_string format binary then
      call (BinaryInject this span carrier) ;; Ret Undefined
    else Ret Undefined.

(** [join(operationName, format, carrier)]: the local [span] is assigned by
    the propagator of the format, and stays [undefined] for any other
    token. *)
Definition join (this : BasicTracer) (operationName format carrier : Value)
  : Prog Value :=
  text ← interface_token this FORMAT_TEXT_MAP;
  if strict_eq_string format text then
    call (TextMapJoin this operationName carrier)
  else
    binary ← interface_token this FORMAT_BINARY;
    if strict_eq_string format binary then
      call (BinaryJoin this operationName carrier)
    else Ret Undefined.

(** [isSample(span, parent)] returns what the sampler returns. *)
Definition isSample (this : BasicTracer) (span parent : Value) : Prog Value :=
  call (SamplerIsSample (_sampler this) span parent).

(** [record(span) { this._recorder.record(span) }] *)
Definition record (this : BasicTracer) (span : Value) : Prog Value :=
  call (RecorderRecord (_recorder this) span) ;; Ret Undefined.

End Tracer.

(** ** [BasicSpan] *)
Module Span.
Import JS Effect.

(** Every method returns the completion value and the span after the
    call.  [tracer()] returns [this._tracer]; the bodies of all other
    methods are empty. *)
Definition tracer (this : BasicSpan) : Prog (Value * BasicSpan) :=
  Ret (TracerRef (_tracer this), this).

Definition setOperationName (this : BasicSpan) (name : Value)
  : Prog (Value * BasicSpan) := Ret (Undefined, this).

Definition setTag (this : BasicSpan) (key value : Value)
  : Prog (Value * BasicSpan) := Ret (Undefined, this).

Definition addTags (this : BasicSpan) (keyValuePairs : Value)
  : Prog (Value * BasicSpan) := Ret (Undefined, this).

Definition setBaggageItem (this : BasicSpan) (key value : Value)
  : Prog (Value * BasicSpan) := Ret (Undefined, this).

Definition getBaggageItem (this : BasicSpan) (key : Value)
  : Prog (Value * BasicSpan) := Ret (Undefined, this).

Definition log (this : BasicSpan) (fields : Value)
  : Prog (Value * BasicSpan) := Ret (Undefined, this).

Definition finish (this : BasicSpan) (finishTime : Value)
  : Prog (Value * BasicSpan) := Ret (Undefined, this).

End Span.

(** ** The baggage-key pattern

    [[a-z0-9][-a-z0-9]*], as the documentation of [setBaggageItem] gives it,
    matched against the whole key. *)
Module BaggageKey.

Definition between (lo hi c : ascii) : bool :=
  (nat_of_ascii lo <=? nat_of_ascii c)%nat && (nat_of_ascii c <=? nat_of_ascii hi)%nat.

Definition head_char (c : ascii) : bool :=
  between "a" "z" c || between "0" "9" c.

Definition tail_char (c : ascii) : bool :=
  Ascii.eqb c "-" || head_char c.

Fixpoint all_chars (p : ascii -> bool) (s : string) : bool :=
  match s with
  | EmptyString => true
  | String c rest => p c && all_chars p rest
  end.

Definition matches (key : string) : bool :=
  match key with
  | EmptyString => false
  | String c rest => head_char c && all_chars tail_char rest
  end.

End BaggageKey.

(* ================================================================== *)
(** * The modules the tracer imports

    [propagation.js], [sampler.js] and the construction of a span's
    identity are not among the sources: the tracer only calls them.  They
    are modelled here from the specification (sections 3, 4.1 to 4.4). *)

Module Identity.

(** Modelled from the spec: the [SpanContext] bundle of section 3, which no
    source file declares.  The two ids are unsigned 64-bit integers, kept
    as [N] with the bound stated in [valid]. *)
Record SpanContext : Type := mkContext {
  traceId : N;
  spanId : N;
  parentId : option N;
  sampled : bool;
  baggage : gmap string string
}.

(** Modelled from the spec: [newRootContext(samplerDecision)] of section
    4.1, absent from the sources; the two random ids are arguments. *)
Definition newRootContext (traceId spanId : N) (samplerDecision : bool)
  : SpanContext :=
  {| traceId := traceId; spanId := spanId; parentId := None;
     sampled := samplerDecision; baggage := ∅ |}.

(** Modelled from the spec: [newChildContext(parent)] of section 4.1,
    absent from the sources; the fresh random span id is an argument. *)
Definition newChildContext (fresh : N) (parent : SpanContext) : SpanContext :=
  {| traceId := traceId parent; spanId := fresh;
     parentId := Some (spanId parent);
     sampled := sampled parent; baggage := baggage parent |}.

(** Modelled from the spec: an id is a 64-bit unsigned integer and never
    the zero value (section 3, invariants). *)
Definition is_id (n : N) : Prop := (0 < n < 2 ^ 64)%N.

(** Modelled from the spec: a valid context has ids in range and baggage
    keys that match the baggage-key pattern (section 3). *)
Definition valid (C : SpanContext) : Prop :=
  is_id (traceId C) /\
  is_id (spanId C) /\
  (forall p, parentId C = Some p -> is_id p) /\
  map_Forall (fun key _ => BaggageKey.matches key = true) (baggage C).

(** Modelled from the spec: what a context created from a decoded one keeps
    of the context that was encoded (contract of section 4.3). *)
Definition continues (C child : SpanContext) : Prop :=
  traceId child = traceId C /\
  parentId child = Some (spanId C) /\
  sampled child = sampled C /\
  baggage child = baggage C.

End Identity.

Module Sampler.

(** Modelled from the spec: the uniform value in [0, 2^64) that section 4.2
    derives from the trace id; [sampler.js] is not among the sources and
    the fixed hash is left open, so it is a parameter. *)
Definition uniform (hash : N -> N) (traceId : N) : N :=
  (hash traceId mod 2 ^ 64)%N.

(** Modelled from the spec: [isSample(traceId)] of section 4.2, sample iff
    the uniform value is below [rate * 2^64]. *)
Definition isSample (hash : N -> N) (rate : Q) (traceId : N) : bool :=
  negb (Qle_bool (rate * inject_Z (2 ^ 64))
                 (inject_Z (Z.of_N (uniform hash traceId)))).


End Sampler.

Module TextMap.
Import Identity.

(** Modelled from the spec: the key of the identity entry and the
    namespace prefix of baggage entries (section 4.3), which the
    specification fixes without naming them. *)
Record Layout : Type := mkLayout {
  identity_key : string;
  baggage_prefix : string
}.

(** Modelled from the spec: the delimiter of the identity entry. *)
Definition delimiter : ascii := ":"%char.

(** Modelled from the spec: an id as a string, in decimal. *)
Definition render_id (n : N) : string :=
  NilEmpty.string_of_uint (N.to_uint n).

(** Modelled from the spec: reading an id back; the empty string is no id. *)
Definition parse_id (s : string) : option N :=
  match s with
  | EmptyString => None
  | _ => N.of_uint <$> NilEmpty.uint_of_string s
  end.

(** Modelled from the spec: the parent id, with the empty string as the
    sentinel of an absent parent. *)
Definition render_parent (p : option N) : string :=
  match p with
  | Some n => render_id n
  | None => EmptyString
  end.

(** Modelled from the spec: reading the parent field back. *)
Definition parse_parent (s : string) : option (option N) :=
  match s with
  | EmptyString => Some None
  | _ => Some <$> parse_id s
  end.

(** Modelled from the spec: the sampled flag as a string. *)
Definition render_sampled (b : bool) : string := if b then "1" else "0".

(** Modelled from the spec: reading the sampled flag back. *)
Definition parse_sampled (s : string) : option bool :=
  if String.eqb s "1" then Some true
  else if String.eqb s "0" then Some false
  else None.

(** Modelled from the spec: fields joined by the delimiter. *)
Fixpoint join_fields (fields : list string) : string :=
  match fields with
  | [] => EmptyString
  | [f] => f
  | f :: rest => f +:+ String delimiter (join_fields rest)
  end.

(** Modelled from the spec: a delimited string cut into its fields. *)
Fixpoint split_fields (s : string) : list string :=
  match s with
  | EmptyString => [EmptyString]
  | String c rest =>
      if Ascii.eqb c delimiter then EmptyString :: split_fields rest
      else match split_fields rest with
           | f :: fs => String c f :: fs
           | [] => [String c EmptyString]
           end
  end.

(** Modelled from the spec: the identity entry, [traceId, spanId, parentId,
    sampled] as delimited strings. *)
Definition identity_entry (C : SpanContext) : string :=
  join_fields [render_id (traceId C); render_id (spanId C);
               render_parent (parentId C); render_sampled (sampled C)].

(** Modelled from the spec: a carrier key without the namespace prefix, if
    it has it. *)
Fixpoint strip_prefix (p s : string) : option string :=
  match p with
  | EmptyString => Some s
  | String a p' =>
      match s with
      | String b s' => if Ascii.eqb a b then strip_prefix p' s' else None
      | EmptyString => None
      end
  end.

(** Modelled from the spec: [inject(context, carrier)] of section 4.3: the
    identity entry and one prefixed entry per baggage item are written,
    every other entry of the carrier stays. *)
Definition inject (L : Layout) (C : SpanContext) (carrier : gmap string string)
  : gmap string string :=
  <[identity_key L := identity_entry C]>
    (kmap (String.app (baggage_prefix L)) (baggage C) ∪ carrier).

(** Modelled from the spec: a carrier entry as a baggage item, when its key
    is in the namespace. *)
Definition baggage_entry (L : Layout) (kv : string * string)
  : option (string * string) :=
  (fun k => (k, kv.2)) <$> strip_prefix (baggage_prefix L) kv.1.

(** Modelled from the spec: the baggage recovered from a carrier; keys
    outside the namespace are ignored. *)
Definition extract_baggage (L : Layout) (carrier : gmap string string)
  : gmap string string :=
  list_to_map (omap (baggage_entry L) (map_to_list carrier)).

(** Modelled from the spec: [extract(carrier)] of section 4.3: no context
    when the identity entry is missing or malformed. *)
Definition extract (L : Layout) (carrier : gmap string string)
  : option SpanContext :=
  entry ← carrier !! identity_key L;
  match split_fields entry with
  | [t; s; p; f] =>
      traceId ← parse_id t;
      spanId ← parse_id s;
      parentId ← parse_parent p;
      sampled ← parse_sampled f;
      Some {| traceId := traceId; spanId := spanId; parentId := parentId;
              sampled := sampled; baggage := extract_baggage L carrier |}
  | _ => None
  end.

(** Modelled from the spec: the identity key lies outside the baggage
    namespace (the prefix is there "to avoid collision"). *)
Definition well_formed (L : Layout) : Prop :=
  strip_prefix (baggage_prefix L) (identity_key L) = None.

End TextMap.

Module Binary.
Import Identity.

(** Modelled from the spec: a byte from a number, modulo 256. *)
Definition byte_of_N (n : N) : Byte.byte :=
  default Byte.x00 (Byte.of_N (n mod 256)).

(** Modelled from the spec: the number a byte stands for. *)
Definition N_of_byte (b : Byte.byte) : N := Byte.to_N b.

(** Modelled from the spec: an unsigned integer in [width] bytes,
    big-endian (section 4.4). *)
Fixpoint encode_be (width : nat) (n : N) : list Byte.byte :=
  match width with
  | O => []
  | S w => byte_of_N (n / 256 ^ N.of_nat w) :: encode_be w n
  end.

(** Modelled from the spec: the value of big-endian bytes. *)
Definition decode_be (bs : list Byte.byte) : N :=
  foldl (fun acc b => (acc * 256 + N_of_byte b)%N) 0%N bs.

(** Modelled from the spec: the variable-length integer of section 4.4,
    seven bits per byte, least significant group first, the high bit set
    on every byte but the last. *)
Fixpoint encode_varint_groups (more : nat) (n : N) : list Byte.byte :=
  match more with
  | O => [byte_of_N n]
  | S m =>
      if (n <? 128)%N then [byte_of_N n]
      else byte_of_N (128 + n mod 128) :: encode_varint_groups m (n / 128)
  end.

(** Modelled from the spec: a variable-length integer; the bit length of
    [n] bounds the number of groups. *)
Definition encode_varint (n : N) : list Byte.byte :=
  encode_varint_groups (N.to_nat (N.log2 n)) n.

(** Modelled from the spec: length, then the bytes of the string. *)
Definition encode_string (s : string) : list Byte.byte :=
  let bs := list_byte_of_string s in
  encode_varint (N.of_nat (length bs)) ++ bs.

(** Modelled from the spec: a baggage item, key then value. *)
Definition encode_item (kv : string * string) : list Byte.byte :=
  encode_string kv.1 ++ encode_string kv.2.

(** Modelled from the spec: a one-byte flag. *)
Definition encode_flag (b : bool) : Byte.byte :=
  if b then Byte.x01 else Byte.x00.

(** Modelled from the spec: [inject(context, carrier)] of section 4.4, the
    bytes that replace the carrier's buffer: trace id, span id, parent
    flag, parent id (zero when absent), sampled, baggage count, items. *)
Definition inject (C : SpanContext) : list Byte.byte :=
  let items := map_to_list (baggage C) in
  encode_be 8 (traceId C) ++
  encode_be 8 (spanId C) ++
  [encode_flag (bool_decide (is_Some (parentId C)))] ++
  encode_be 8 (default 0%N (parentId C)) ++
  [encode_flag (sampled C)] ++
  encode_varint (N.of_nat (length items)) ++
  concat (encode_item <$> items).

(** Modelled from the spec: the read position in the buffer, and the reads
    performed so far as (offset, length), most recent first. *)
Record Cursor : Type := mkCursor {
  pos : nat;
  reads : list (nat * nat)
}.

(** Modelled from the spec: a decoding step; [None] is the malformed
    carrier. *)
Definition Reader (A : Type) : Type :=
  list Byte.byte -> Cursor -> Cursor * option A.

(** Modelled from the spec: a step that reads nothing. *)
Definition ret {A} (a : A) : Reader A := fun _ c => (c, Some a).

(** Modelled from the spec: the failing step. *)
Definition fail {A} : Reader A := fun _ c => (c, None).

(** Modelled from the spec: one step after the other; a failure stops the
    decoding. *)
Definition bind {A B} (r : Reader A) (f : A -> Reader B) : Reader B :=
  fun buf c =>
    match r buf c with
    | (c', Some a) => f a buf c'
    | (c', None) => (c', None)
    end.

(** Modelled from the spec: the only access to the buffer.  The range is
    checked first; the read is performed, and logged, only when it lies
    inside the buffer. *)
Definition read_bytes (n : N) : Reader (list Byte.byte) :=
  fun buf c =>
    if (N.of_nat (pos c) + n <=? N.of_nat (length buf))%N then
      ({| pos := pos c + N.to_nat n; reads := (pos c, N.to_nat n) :: reads c |},
       Some (take (N.to_nat n) (drop (pos c) buf)))
    else (c, None).

(** Modelled from the spec: a one-byte field. *)
Definition read_u8 : Reader N :=
  bind (read_bytes 1) (fun bs => ret (decode_be bs)).

(** Modelled from the spec: an eight-byte big-endian field. *)
Definition read_u64 : Reader N :=
  bind (read_bytes 8) (fun bs => ret (decode_be bs)).

(** Modelled from the spec: the groups of a variable-length integer, at
    most [fuel] of them. *)
Fixpoint read_varint_groups (fuel : nat) : Reader N :=
  match fuel with
  | O => fail
  | S f =>
      bind read_u8 (fun b =>
        if (b <? 128)%N then ret b
        else bind (read_varint_groups f) (fun rest =>
               ret (b - 128 + 128 * rest)%N))
  end.

(** Modelled from the spec: a variable-length integer; it has at most as
    many bytes as are left in the buffer. *)
Definition read_varint : Reader N :=
  fun buf c => read_varint_groups (length buf - pos c) buf c.

(** Modelled from the spec: a length-prefixed string. *)
Definition read_string : Reader string :=
  bind read_varint (fun len =>
  bind (read_bytes len) (fun bs =>
  ret (string_of_list_byte bs))).

(** Modelled from the spec: [count] baggage items. *)
Fixpoint read_items (count : nat) : Reader (list (string * string)) :=
  match count with
  | O => ret []
  | S n =>
      bind read_string (fun k =>
      bind read_string (fun v =>
      bind (read_items n) (fun rest =>
      ret ((k, v) :: rest))))
  end.

(** Modelled from the spec: the layout of section 4.4, field by field. *)
Definition read_context : Reader SpanContext :=
  bind read_u64 (fun traceId =>
  bind read_u64 (fun spanId =>
  bind read_u8 (fun present =>
  bind read_u64 (fun parent =>
  bind read_u8 (fun sampled =>
  bind read_varint (fun count =>
  bind (read_items (N.to_nat count)) (fun items =>
  ret {| traceId := traceId;
         spanId := spanId;
         parentId := if (present =? 0)%N then None else Some parent;
         sampled := negb (sampled =? 0)%N;
         baggage := list_to_map items |}))))))).

(** Modelled from the spec: decoding starts at offset 0 with no read made. *)
Definition start : Cursor := {| pos := 0; reads := [] |}.

(** Modelled from the spec: [extract(carrier)] of section 4.4: the context,
    or the failure [MalformedCarrier]. *)
Definition extract (buf : list Byte.byte) : JS.Outcome SpanContext :=
  match (read_context buf start).2 with
  | Some C => JS.Return C
  | None => JS.Raise JS.MalformedCarrier
  end.

(** Modelled from the spec: the fixed part of the layout and the first byte
    of the baggage count. *)
Definition header_length : nat := 8 + 8 + 1 + 8 + 1 + 1.

(** Modelled from the spec: a logged read lies inside the buffer. *)
Definition in_bounds (buf : list Byte.byte) (rd : nat * nat) : Prop :=
  rd.1 + rd.2 <= length buf.

End Binary.

(* ================================================================== *)
(** * Vocabulary of the statements *)

Section TracerVocabulary.
Import JS Effect.

(** [if (span.context.sampled)], as a test on the value handed to
    [record]. *)
Definition context_sampled (span : Value) : bool :=
  match get span "context" with
  | Return context =>
      match get context "sampled" with
      | Return flag => truthy flag
      | Raise _ => false
      end
  | Raise _ => false
  end.

Definition reached_recorder {W A} (r : Run W A) : bool :=
  existsb (fun c => match c with RecorderRecord _ _ => true | _ => false end)
          (trace r).

Definition consulted_sampler {W A} (r : Run W A) : bool :=
  existsb (fun c => match c with SamplerIsSample _ _ _ => true | _ => false end)
          (trace r).

(** A world with a clock and nothing else: every collaborator answers
    [undefined]. *)
Definition clock_only : Handler Z :=
  fun c now =>
    match c with
    | DateNow => (Return (Number now), (now + 1)%Z)
    | _ => (Return Undefined, now)
    end.

(** Programs that call no collaborator. *)
Definition silent {A} (p : Prog A) : Prop :=
  match p with
  | Vis _ _ => False
  | _ => True
  end.

(** The scenario of the specification's baggage-inheritance property,
    through the public methods: set ["a"] to ["1"] on a parent span, start
    a child of it, and ask the child for ["a"]. *)
Definition baggage_inheritance (this : BasicTracer) : Prog Value :=
  '(parent, _) ← Tracer.startSpan this (Object [("operationName", Str "op-a")]);
  '(_, parent) ← Span.setBaggageItem parent (Str "a") (Str "1");
  '(child, _) ← Tracer.startSpan this
                   (Object [("operationName", Str "op-b");
                            ("parent", SpanRef parent)]);
  '(answer, _) ← Span.getBaggageItem child (Str "a");
  Ret answer.

(** [undefined] and [null], the two values without properties. *)
Definition nullish (v : Value) : bool :=
  match v with
  | Undefined | Null => true
  | _ => false
  end.

(** A call of one of [BasicSpan]'s methods, with its arguments. *)
Inductive SpanCall : Type :=
| CallTracer
| CallSetOperationName (name : Value)
| CallSetTag (key value : Value)
| CallAddTags (keyValuePairs : Value)
| CallSetBaggageItem (key value : Value)
| CallGetBaggageItem (key : Value)
| CallLog (fields : Value)
| CallFinish (finishTime : Value).

(** The method call [c] on the span [this]. *)
Definition invoke (this : BasicSpan) (c : SpanCall) : Prog (Value * BasicSpan) :=
  match c with
  | CallTracer => Span.tracer this
  | CallSetOperationName name => Span.setOperationName this name
  | CallSetTag key value => Span.setTag this key value
  | CallAddTags keyValuePairs => Span.addTags this keyValuePairs
  | CallSetBaggageItem key value => Span.setBaggageItem this key value
  | CallGetBaggageItem key => Span.getBaggageItem this key
  | CallLog fields => Span.log this fields
  | CallFinish finishTime => Span.finish this finishTime
  end.

(** What the method call [c] returns on the span [this]: the tracer for
    [tracer()], [undefined] for every other method. *)
Definition answer_of (this : BasicSpan) (c : SpanCall) : Value :=
  match c with
  | CallTracer => TracerRef (_tracer this)
  | _ => Undefined
  end.

(** Method calls made one after the other on the same span object: the
    values they return, in order, and the span after the last one. *)
Fixpoint session (this : BasicSpan) (calls : list SpanCall)
  : Prog (list Value * BasicSpan) :=
  match calls with
  | [] => Ret ([], this)
  | c :: rest =>
      '(answer, this') ← invoke this c;
      '(answers, last) ← session this' rest;
      Ret (answer :: answers, last)
  end.

(** A span's life: [startSpan(fields)], then method calls on the span it
    returned. *)
Definition lifecycle (this : BasicTracer) (fields : Value) (calls : list SpanCall)
  : Prog (list Value * BasicSpan) :=
  '(span, _) ← Tracer.startSpan this fields;
  session span calls.

(** A tracer as the constructor builds it, after the given calls of
    [setInterface]. *)
Definition configured (sampler recorder : option nat) (interfaces : list Interface)
  : BasicTracer :=
  foldl Tracer.setInterface (Tracer.new sampler recorder) interfaces.

(** Completion of a call that passes a collaborator's failure on and
    replaces its value by [undefined]. *)
Definition discard_value (o : Outcome Value) : Outcome Value :=
  match o with
  | Return _ => Return Undefined
  | Raise e => Raise e
  end.

(** [v.name] where [v] has properties, [undefined] otherwise. *)
Definition property (v : Value) (name : string) : Value :=
  match get v name with
  | Return x => x
  | Raise _ => Undefined
  end.

(** The object literal of [startSpan] for a given [parent]:
    [{operationName: fields.operationName, parent, startTime:
    fields.startTime, tags: fields.tags}]. *)
Definition constructor_argument (fields parent : Value) : Value :=
  Object [("operationName", property fields "operationName");
          ("parent", parent);
          ("startTime", property fields "startTime");
          ("tags", property fields "tags")].




End TracerVocabulary.

Section CodecVocabulary.
Import Identity TextMap Binary.

(** Fields that do not contain the delimiter. *)
Fixpoint plain (s : string) : Prop :=
  match s with
  | EmptyString => True
  | String c rest => Ascii.eqb c delimiter = false /\ plain rest
  end.

(** [decodes r bs x]: wherever the bytes [bs] stand in a buffer, [r] started
    on them returns [x] and stops right behind them. *)
Definition decodes {A} (r : Reader A) (bs : list Byte.byte) (x : A) : Prop :=
  forall buf c suf,
    pos c <= length buf ->
    drop (pos c) buf = bs ++ suf ->
    exists c', r buf c = (c', Some x) /\ pos c' = pos c + length bs.

(** [safe r]: [r] adds only in-range reads to the log, whether it succeeds
    or fails. *)
Definition safe {A} (r : Reader A) : Prop :=
  forall buf c,
    Forall (in_bounds buf) (reads c) ->
    Forall (in_bounds buf) (reads (r buf c).1).

(** [spans r k]: a successful [r] moves the position forward by at least
    [k] and, started inside the buffer, stays inside it. *)
Definition spans {A} (r : Reader A) (k : nat) : Prop :=
  forall buf c c' x,
    r buf c = (c', Some x) ->
    pos c + k <= pos c' /\ (pos c <= length buf -> pos c' <= length buf).

(** [local r]: a successful run of [r] is reproduced on every buffer that
    agrees with the original one up to the position where [r] stopped. *)
Definition local {A} (r : Reader A) : Prop :=
  forall buf c c' x,
    r buf c = (c', Some x) ->
    forall buf',
      take (pos c') buf' = take (pos c') buf ->
      pos c' <= length buf' ->
      r buf' c = (c', Some x).

(** [tidy r]: [r] is local and never moves backwards. *)
Definition tidy {A} (r : Reader A) : Prop := local r /\ spans r 0.

(** A layout, and a context for every trace id, used as concrete inputs. *)
Definition example_layout : TextMap.Layout :=
  TextMap.mkLayout "ot-tracer-state" "ot-baggage-".

Definition example_context (trace : N) : SpanContext :=
  {| traceId := trace; spanId := 300; parentId := Some 7%N; sampled := true;
     baggage := {[ "a" := "1"; "ota" := "v1" ]} |}.

End CodecVocabulary.

(* ================================================================== *)
(** * Properties of the tracer and the span *)

Example baggage_key_pattern :
  BaggageKey.matches "ota" = true /\
  BaggageKey.matches "a-1" = true /\
  BaggageKey.matches "OTA" = false /\
  BaggageKey.matches "-a" = false /\
  BaggageKey.matches "Not A Key!" = false /\
  BaggageKey.matches EmptyString = false.
Proof. repeat split. Qed.

Section TracerFacts.
Import JS Effect.

Lemma assoc_update_eq name x props :
  assoc name (update name x props) = x.
Proof.
  induction props as [|[k v] rest IH]; simpl.
  - by rewrite String.eqb_refl.
  - destruct (String.eqb k name) eqn:E; simpl; by rewrite E.
Qed.

Lemma assoc_update_ne name other x props :
  name ≠ other -> assoc other (update name x props) = assoc other props.
Proof.
  intros Hne. induction props as [|[k v] rest IH]; simpl.
  - destruct (String.eqb name other) eqn:E; [|done].
    apply String.eqb_eq in E. contradiction.
  - destruct (String.eqb k name) eqn:E; simpl.
    + apply String.eqb_eq in E. subst k.
      destruct (String.eqb name other) eqn:E'; [|done].
      apply String.eqb_eq in E'. contradiction.
    + by rewrite IH.
Qed.

(** A value with a function-valued property is a plain object or a span:
    in particular it is truthy. *)
Lemma function_property_truthy v name r :
  get v name = Return (Function r) -> truthy v = true.
Proof. destruct v; simpl; intros H; congruence. Qed.

(** The constructor performs at most the clock call and keeps the tracer
    only. *)
Lemma BasicSpan_new_object this props :
  Tracer.BasicSpan_new this (Object props) =
    match assoc "startTime" props with
    | Undefined => Vis DateNow (fun _ => Ret (mkSpan this))
    | _ => Ret (mkSpan this)
    end.
Proof.
  unfold Tracer.BasicSpan_new. simpl.
  destruct (assoc "startTime" props); reflexivity.
Qed.

End TracerFacts.

Section StartSpan.
Import JS Effect.

Lemma typeof_function v :
  String.eqb (typeof v) "function" = true ->
  (exists r, v = Function r) \/ (exists e, v = Thrower e).
Proof. destruct v; simpl; intros H; try discriminate; eauto. Qed.

Lemma get_truthy v name : truthy v = true -> exists x, get v name = Return x.
Proof. destruct v; simpl; intros H; try discriminate; eauto. Qed.

(** A value with a function-valued property is an object or a span, hence
    truthy. *)
Lemma function_valued_truthy v name f :
  get v name = Return f ->
  String.eqb (typeof f) "function" = true ->
  truthy v = true.
Proof.
  destruct v; simpl; intros Hget Hf; try discriminate Hget; try reflexivity;
    injection Hget as <-; discriminate Hf.
Qed.

Lemma span_fields_object props :
  Tracer.span_fields (Object props) =
    Ret (Object [("operationName", assoc "operationName" props);
                 ("parent", assoc "parent" props);
                 ("startTime", assoc "startTime" props);
                 ("tags", assoc "tags" props)]).
Proof. reflexivity. Qed.

(** A [fields] value whose [parent] is falsy or has no function-valued
    [imp] is left as it is. *)
Lemma resolve_parent_unchanged fields parent :
  get fields "parent" = Return parent ->
  (forall imp, get parent "imp" = Return imp ->
               String.eqb (typeof imp) "function" = false) ->
  Tracer.resolve_parent fields = Ret fields.
Proof.
  intros Hp Himp. unfold Tracer.resolve_parent.
  rewrite Hp. simpl. destruct (truthy parent) eqn:Ht; [|done].
  destruct (get_truthy parent "imp" Ht) as [x Hx]. rewrite Hx. simpl.
  by rewrite (Himp x Hx).
Qed.

(** With a function-valued [imp] the first statement of [startSpan] is the
    call followed by the assignment. *)
Lemma resolve_parent_call fields parent imp :
  get fields "parent" = Return parent ->
  get parent "imp" = Return imp ->
  String.eqb (typeof imp) "function" = true ->
  Tracer.resolve_parent fields =
    (parent' ← lift (call0 imp); lift (set fields "parent" parent')).
Proof.
  intros Hp Himp Hf. unfold Tracer.resolve_parent.
  rewrite Hp. simpl.
  rewrite (function_valued_truthy _ _ _ Himp Hf), Himp. simpl.
  by rewrite Hf.
Qed.

(** An accepted assignment writes the property and no other. *)
Lemma set_get_eq v name x v' :
  set v name x = Return v' -> get v' name = Return x.
Proof.
  destruct v; simpl; try discriminate.
  - intros [= <-]. simpl. by rewrite assoc_update_eq.
  - destruct (existsb _ readonly); [discriminate|].
    destruct (has name props || extensible); [|discriminate].
    intros [= <-]. simpl. by rewrite assoc_update_eq.
Qed.

Lemma set_get_ne v name x v' other :
  set v name x = Return v' -> name ≠ other -> get v' other = get v other.
Proof.
  destruct v; simpl; try discriminate.
  - intros [= <-] Hne. simpl. by rewrite assoc_update_ne.
  - destruct (existsb _ readonly); [discriminate|].
    destruct (has name props || extensible); [|discriminate].
    intros [= <-] Hne. simpl. by rewrite assoc_update_ne.
Qed.

Lemma set_defined v name x v' :
  set v name x = Return v' -> exists y, get v' "parent" = Return y.
Proof.
  destruct v; simpl; try discriminate.
  - intros [= <-]. simpl. eauto.
  - destruct (existsb _ readonly); [discriminate|].
    destruct (has name props || extensible); [|discriminate].
    intros [= <-]. simpl. eauto.
Qed.

(** The literal built from a value with properties. *)
Lemma span_fields_given fields parent :
  get fields "parent" = Return parent ->
  Tracer.span_fields fields = Ret (constructor_argument fields parent).
Proof.
  unfold Tracer.span_fields, constructor_argument, property.
  destruct fields; simpl; try discriminate; by intros [= <-].
Qed.

(** The literal built after an accepted assignment to [parent]. *)
Lemma span_fields_after_set fields r fields' :
  set fields "parent" r = Return fields' ->
  Tracer.span_fields fields' = Ret (constructor_argument fields r).
Proof.
  intros Hset.
  rewrite (span_fields_given fields' r (set_get_eq _ _ _ _ Hset)).
  unfold constructor_argument, property.
  by rewrite !(set_get_ne _ _ _ _ _ Hset).
Qed.

End StartSpan.

(** C10, as the code has it.  [startSpan(fields)], whatever class it
    instantiates: when [fields.parent] has a function-valued [imp], the
    method is called and its result assigned to [fields.parent].  If the
    call returns and the assignment is accepted, [fields.parent] holds the
    result and the constructor receives it as [parent], next to the
    [operationName], [startTime] and [tags] of [fields]; if the call
    throws, or the strict-mode assignment is rejected, [startSpan] throws
    that error and constructs nothing.  In every other case [fields] is
    not written and the constructor receives [fields.parent] as given. *)
Theorem startSpan_parent_resolution
    (S : Type) (construct : BasicTracer -> JS.Value -> Effect.Prog S)
    (this : BasicTracer) (fields parent : JS.Value) :
  JS.get fields "parent" = JS.Return parent ->
  (forall imp r fields',
     JS.get parent "imp" = JS.Return imp ->
     JS.typeof imp = "function" ->
     JS.call0 imp = JS.Return r ->
     JS.set fields "parent" r = JS.Return fields' ->
     JS.get fields' "parent" = JS.Return r /\
     Tracer.startSpan_with construct this fields =
       (span ← construct this (constructor_argument fields r);
        Effect.Ret (span, fields')))
  /\
  (forall imp e,
     JS.get parent "imp" = JS.Return imp ->
     JS.typeof imp = "function" ->
     (JS.call0 imp = JS.Raise e \/
      exists r, JS.call0 imp = JS.Return r /\
                JS.set fields "parent" r = JS.Raise e) ->
     Tracer.startSpan_with construct this fields = Effect.Throw e)
  /\
  ((forall imp, JS.get parent "imp" = JS.Return imp ->
                JS.typeof imp ≠ "function") ->
   Tracer.startSpan_with construct this fields =
     (span ← construct this (constructor_argument fields parent);
      Effect.Ret (span, fields))).
Proof.
  intros Hparent. split; [|split].
  - intros imp r fields' Himp Hf Hcall Hset.
    apply String.eqb_eq in Hf.
    split; [by apply (set_get_eq _ _ _ _ Hset)|].
    unfold Tracer.startSpan_with.
    rewrite (resolve_parent_call _ _ _ Hparent Himp Hf), Hcall. simpl.
    rewrite Hset. simpl.
    by rewrite (span_fields_after_set _ _ _ Hset).
  - intros imp e Himp Hf Hthrow. apply String.eqb_eq in Hf.
    unfold Tracer.startSpan_with.
    rewrite (resolve_parent_call _ _ _ Hparent Himp Hf).
    destruct Hthrow as [Hcall|(r & Hcall & Hset)]; rewrite Hcall; simpl;
      [reflexivity|]. by rewrite Hset.
  - intros Hnone. unfold Tracer.startSpan_with.
    rewrite (resolve_parent_unchanged _ _ Hparent).
    + simpl. by rewrite (span_fields_given _ _ Hparent).
    + intros imp Himp. destruct (String.eqb (JS.typeof imp) "function") eqn:E;
        [|reflexivity].
      apply String.eqb_eq in E. by destruct (Hnone imp Himp).
Qed.

(** A concrete call of each kind, with a constructor that returns what it
    was given: a parent that wraps its implementation behind [imp], the
    same on a frozen [fields] object, and a parent that is the
    implementation itself. *)
Lemma startSpan_parent_resolution_witness :
  let this := Tracer.new None None in
  let construct := fun (_ : BasicTracer) (arg : JS.Value) => Effect.Ret arg in
  let impl := JS.Object [("traceId", JS.Number 7)] in
  let wrapper := JS.Object [("imp", JS.Function impl)] in
  let wrapped := [("operationName", JS.Str "op-b"); ("parent", wrapper)] in
  let direct := JS.Object [("operationName", JS.Str "op-b"); ("parent", impl)] in
  let resolved := JS.Object [("operationName", JS.Str "op-b"); ("parent", impl)] in
  let literal := JS.Object [("operationName", JS.Str "op-b"); ("parent", impl);
                            ("startTime", JS.Undefined); ("tags", JS.Undefined)] in
  Tracer.startSpan_with construct this (JS.Object wrapped) =
    Effect.Ret (literal, resolved) /\
  Tracer.startSpan_with construct this (JS.frozen wrapped) =
    Effect.Throw JS.TypeError /\
  Tracer.startSpan_with construct this direct = Effect.Ret (literal, direct).
Proof.
  intros this construct impl wrapper wrapped direct resolved literal.
  split; [|split].
  - exact (proj2 (proj1 (startSpan_parent_resolution JS.Value construct this
                           (JS.Object wrapped) wrapper eq_refl)
                    (JS.Function impl) impl resolved
                    eq_refl eq_refl eq_refl eq_refl)).
  - exact (proj1 (proj2 (startSpan_parent_resolution JS.Value construct this
                           (JS.frozen wrapped) wrapper eq_refl))
             (JS.Function impl) JS.TypeError eq_refl eq_refl
             (or_intror (ex_intro _ impl (conj eq_refl eq_refl)))).
  - apply (proj2 (proj2 (startSpan_parent_resolution JS.Value construct this
                           direct impl eq_refl))).
    intros imp H. simpl in H. injection H as <-. discriminate.
Defined.

(** C10, as the specification states it, fails: on a frozen [fields] object
    whose parent has a function-valued [imp], the parent is not replaced
    and no span is constructed; [startSpan] throws a TypeError. *)
Lemma startSpan_frozen_fields_throw :
  ~ (forall (S : Type) (construct : BasicTracer -> JS.Value -> Effect.Prog S)
            (this : BasicTracer) (fields parent r : JS.Value),
       JS.get fields "parent" = JS.Return parent ->
       JS.get parent "imp" = JS.Return (JS.Function r) ->
       exists fields',
         JS.get fields' "parent" = JS.Return r /\
         Tracer.startSpan_with construct this fields =
           (span ← construct this (constructor_argument fields r);
            Effect.Ret (span, fields'))).
Proof.
  intros H.
  destruct (H JS.Value (fun _ arg => Effect.Ret arg) (Tracer.new None None)
              (JS.frozen [("operationName", JS.Str "op-b");
                          ("parent", JS.Object [("imp", JS.Function JS.Null)])])
              (JS.Object [("imp", JS.Function JS.Null)]) JS.Null
              eq_refl eq_refl) as (fields' & _ & Hrun).
  vm_compute in Hrun. discriminate Hrun.
Qed.

Section Orchestration.
Import JS Effect.

Lemma strict_eq_string_false v token :
  v ≠ Str token -> strict_eq_string v token = false.
Proof.
  destruct v; simpl; try done. intros Hne.
  destruct (String.eqb s token) eqn:E; [|done].
  apply String.eqb_eq in E. congruence.
Qed.

End Orchestration.

(** C2, as the code has it.  [record(span)] makes exactly one call, to the
    tracer's recorder, with the span it was given, whatever the span's
    [sampled] flag; the span value itself is handed over untouched. *)
Theorem record_forwards_every_span
    (W : Type) (h : Effect.Handler W) (w : W) (this : BasicTracer) (span : JS.Value) :
  Effect.trace (Effect.run h (Tracer.record this span) w) =
    [Effect.RecorderRecord (_recorder this) span].
Proof.
  unfold Tracer.record, Effect.call. simpl.
  destruct (h _ w) as [[v|e] w']; reflexivity.
Qed.

(** C2, as the specification states it, fails: a span whose context says
    [sampled: false] still reaches the recorder. *)
Lemma record_not_gated_by_sampled :
  ~ (forall (W : Type) (h : Effect.Handler W) (w : W) this span,
       reached_recorder (Effect.run h (Tracer.record this span) w) =
       context_sampled span).
Proof.
  intros H.
  specialize (H Z clock_only 0%Z (Tracer.new None None)
                (JS.Object [("context", JS.Object [("sampled", JS.Bool false)])])).
  vm_compute in H. discriminate H.
Qed.

(** C4, as the code has it.  With an interface installed and a format token
    equal to neither [FORMAT_TEXT_MAP] nor [FORMAT_BINARY], [inject] returns
    [undefined] without calling a propagator and [join] returns [undefined];
    no error is raised. *)
Theorem unknown_format_is_ignored
    (this : BasicTracer) (inf : Interface) (span operationName format carrier : JS.Value) :
  _interface this = Some inf ->
  format ≠ JS.Str (FORMAT_TEXT_MAP inf) ->
  format ≠ JS.Str (FORMAT_BINARY inf) ->
  Tracer.inject this span format carrier = Effect.Ret JS.Undefined /\
  Tracer.join this operationName format carrier = Effect.Ret JS.Undefined.
Proof.
  intros Hinf Htext Hbinary.
  unfold Tracer.inject, Tracer.join, Tracer.interface_token.
  rewrite Hinf. simpl.
  rewrite (strict_eq_string_false _ _ Htext), (strict_eq_string_false _ _ Hbinary).
  split; reflexivity.
Qed.

Lemma unknown_format_is_ignored_witness :
  let this := Tracer.setInterface (Tracer.new None None)
                (mkInterface "text_map" "binary") in
  Tracer.inject this (JS.Object []) (JS.Str "http_header") (JS.Object []) =
    Effect.Ret JS.Undefined /\
  Tracer.join this (JS.Str "op-b") (JS.Str "http_header") (JS.Object []) =
    Effect.Ret JS.Undefined.
Proof.
  intros this.
  apply (unknown_format_is_ignored this (mkInterface "text_map" "binary"));
    [reflexivity | discriminate | discriminate].
Defined.

(** C4, as the specification states it, fails: for a token that is neither of the
    two formats, no run of [inject] or [join] ends in [UnsupportedFormat]. *)
Lemma unknown_format_raises_nothing :
  ~ (forall (W : Type) (h : Effect.Handler W) (w : W)
            this inf span operationName format carrier,
       _interface this = Some inf ->
       format ≠ JS.Str (FORMAT_TEXT_MAP inf) ->
       format ≠ JS.Str (FORMAT_BINARY inf) ->
       Effect.outcome (Effect.run h (Tracer.inject this span format carrier) w) =
         JS.Raise JS.UnsupportedFormat /\
       Effect.outcome (Effect.run h (Tracer.join this operationName format carrier) w) =
         JS.Raise JS.UnsupportedFormat).
Proof.
  intros H.
  destruct (H Z clock_only 0%Z
              (Tracer.setInterface (Tracer.new None None)
                 (mkInterface "text_map" "binary"))
              (mkInterface "text_map" "binary")
              (JS.Object []) (JS.Str "op-b") (JS.Str "http_header") (JS.Object [])
              eq_refl) as [Hinject _]; [discriminate | discriminate |].
  vm_compute in Hinject. discriminate Hinject.
Qed.

(** C5, as the code has it.  [setBaggageItem] with a key outside the
    pattern completes normally with [undefined], calls nothing, and leaves
    the span, hence every answer of [getBaggageItem], as it was. *)
Theorem setBaggageItem_bad_key_no_effect
    (W : Type) (h : Effect.Handler W) (w : W)
    (this : BasicSpan) (key : string) (value : JS.Value) :
  BaggageKey.matches key = false ->
  let r := Effect.run h (Span.setBaggageItem this (JS.Str key) value) w in
  Effect.outcome r = JS.Return (JS.Undefined, this) /\
  Effect.world r = w /\
  Effect.trace r = [] /\
  forall this' k, Effect.outcome r = JS.Return (JS.Undefined, this') ->
    Span.getBaggageItem this' k = Span.getBaggageItem this k.
Proof.
  intros _ r. subst r. simpl. repeat split.
  intros this' k Heq. by injection Heq as <-.
Qed.

Lemma setBaggageItem_bad_key_no_effect_witness :
  let this := mkSpan (Tracer.new None None) in
  let r := Effect.run clock_only
             (Span.setBaggageItem this (JS.Str "Not A Key!") (JS.Str "v1")) 0%Z in
  Effect.outcome r = JS.Return (JS.Undefined, this) /\
  Effect.world r = 0%Z /\
  Effect.trace r = [] /\
  forall this' k, Effect.outcome r = JS.Return (JS.Undefined, this') ->
    Span.getBaggageItem this' k = Span.getBaggageItem this k.
Proof.
  intros this.
  exact (setBaggageItem_bad_key_no_effect Z clock_only 0%Z this "Not A Key!"
           (JS.Str "v1") eq_refl).
Defined.

(** C5, as the specification states it, fails: a key outside the pattern does not
    make [setBaggageItem] raise [InvalidBaggageKey]. *)
Lemma setBaggageItem_never_rejects :
  ~ (forall (W : Type) (h : Effect.Handler W) (w : W) this key value,
       BaggageKey.matches key = false ->
       Effect.outcome (Effect.run h (Span.setBaggageItem this (JS.Str key) value) w) =
         JS.Raise JS.InvalidBaggageKey).
Proof.
  intros H.
  specialize (H Z clock_only 0%Z (mkSpan (Tracer.new None None)) "Not A Key!"
                (JS.Str "v1") eq_refl).
  simpl in H. discriminate H.
Qed.

Section SpanCreation.
Import JS Effect.

Lemma silent_lift {A} (o : Outcome A) : silent (lift o).
Proof. by destruct o. Qed.

Lemma silent_bind {A B} (p : Prog A) (f : A -> Prog B) :
  silent p -> (forall a, silent (f a)) -> silent (p ≫= f).
Proof. destruct p; simpl; [auto | auto | tauto]. Qed.

Lemma silent_resolve_parent fields : silent (Tracer.resolve_parent fields).
Proof.
  unfold Tracer.resolve_parent.
  apply silent_bind; [apply silent_lift|]. intros parent.
  destruct (truthy parent); [|exact I].
  apply silent_bind; [apply silent_lift|]. intros imp.
  destruct (String.eqb (typeof imp) "function"); [|exact I].
  apply silent_bind; [apply silent_lift|]. intros parent'.
  apply silent_lift.
Qed.

(** [span_fields] either throws or builds the four-property literal. *)
Lemma span_fields_cases fields :
  (exists e, Tracer.span_fields fields = Throw e) \/
  (exists a b c d,
     Tracer.span_fields fields =
       Ret (Object [("operationName", a); ("parent", b);
                    ("startTime", c); ("tags", d)])).
Proof.
  unfold Tracer.span_fields.
  destruct (get fields "operationName") as [a|e] eqn:Ha; simpl;
    [|left; eauto].
  destruct (get fields "parent") as [b|e] eqn:Hb; simpl; [|left; eauto].
  destruct (get fields "startTime") as [c|e] eqn:Hc; simpl; [|left; eauto].
  destruct (get fields "tags") as [d|e] eqn:Hd; simpl; [|left; eauto].
  right. eauto 6.
Qed.

(** Every run of [startSpan] calls nothing but the clock, and a span it
    returns is the bare [{_tracer}] object. *)
Lemma startSpan_run W (h : Handler W) w this fields :
  let r := run h (Tracer.startSpan this fields) w in
  Forall (fun c => c = DateNow) (trace r) /\
  forall span fields', outcome r = Return (span, fields') -> span = mkSpan this.
Proof.
  unfold Tracer.startSpan, Tracer.startSpan_with.
  pose proof (silent_resolve_parent fields) as Hs.
  destruct (Tracer.resolve_parent fields) as [fields1|e|c k]; simpl in *;
    [| split; [constructor | discriminate] | contradiction].
  destruct (span_fields_cases fields1) as [[e ->]|(a & b & c & d & ->)]; simpl;
    [split; [constructor | discriminate]|].
  destruct c; simpl;
    try (split; [constructor | by intros ? ? [= <- _]]).
  destruct (h DateNow w) as [[v|e] w']; simpl.
  - split; [repeat constructor | by intros ? ? [= <- _]].
  - split; [repeat constructor | discriminate].
Qed.

End SpanCreation.

(** C6, on the code.  No run of [startSpan] consults the sampler, for a
    root span as little as for a child: the only call it can make is the
    clock's. *)
Theorem startSpan_never_consults_sampler
    (W : Type) (h : Effect.Handler W) (w : W) (this : BasicTracer) (fields : JS.Value) :
  consulted_sampler (Effect.run h (Tracer.startSpan this fields) w) = false.
Proof.
  destruct (startSpan_run W h w this fields) as [Hcalls _].
  unfold consulted_sampler.
  induction Hcalls as [|c rest -> _ IH]; [reflexivity | exact IH].
Qed.

(** C7, on the code.  After [setBaggageItem("a", "1")] on the parent, a
    child started from it answers [getBaggageItem("a")] with [undefined]. *)
Theorem child_does_not_inherit_baggage :
  Effect.outcome
    (Effect.run clock_only (baggage_inheritance (Tracer.new None None)) 0%Z) =
  JS.Return JS.Undefined.
Proof. reflexivity. Qed.

(** The call of the specification's end-to-end scenario, with a start time
    and tags, next to a call that shares none of its fields: the clock is
    not read when [startTime] is given, it is read once when it is omitted,
    the sampler is not consulted, and the two spans are equal. *)
Example startSpan_two_calls :
  let this := Tracer.new (Some 1%nat) None in
  let first :=
    Effect.run clock_only
      (Tracer.startSpan this
         (JS.Object [("operationName", JS.Str "op-a");
                     ("startTime", JS.Number 5);
                     ("tags", JS.Object [("k", JS.Str "v")])])) 0%Z in
  let second :=
    Effect.run clock_only
      (Tracer.startSpan this (JS.Object [("operationName", JS.Str "op-b")])) 0%Z in
  Effect.trace first = [] /\
  Effect.trace second = [Effect.DateNow] /\
  (exists fields1 fields2,
     Effect.outcome first = JS.Return (mkSpan this, fields1) /\
     Effect.outcome second = JS.Return (mkSpan this, fields2)).
Proof. vm_compute. repeat split. eexists _, _. split; reflexivity. Qed.

(** C9, on the code.  Whatever [operationName], [startTime] and [tags] the
    caller supplies, the span [startSpan] returns is the object holding the
    tracer and nothing else: two calls that differ in all three fields
    return equal spans. *)
Theorem startSpan_discards_fields
    (W : Type) (h : Effect.Handler W) (w : W) (this : BasicTracer) (fields : JS.Value) :
  match Effect.outcome (Effect.run h (Tracer.startSpan this fields) w) with
  | JS.Return (span, _) => span = mkSpan this
  | JS.Raise _ => True
  end.
Proof.
  destruct (startSpan_run W h w this fields) as [_ Hspan].
  destruct (Effect.outcome _) as [[span fields']|e]; [|exact I].
  by apply (Hspan span fields').
Qed.

(* ================================================================== *)
(** * Properties of the text-map codec *)

Section TextMapFacts.
Import Identity TextMap.

Lemma strip_prefix_app p s : strip_prefix p (p +:+ s) = Some s.
Proof.
  induction p as [|a p IH]; simpl; [done|].
  by rewrite Ascii.eqb_refl.
Qed.

Lemma strip_prefix_Some p s r : strip_prefix p s = Some r -> s = p +:+ r.
Proof.
  revert s. induction p as [|a p IH]; intros s; simpl.
  - by intros [= ->].
  - destruct s as [|b s]; [done|].
    destruct (Ascii.eqb a b) eqn:E; [|done].
    apply Ascii.eqb_eq in E as ->. intros H. by rewrite (IH _ H).
Qed.

Lemma split_fields_plain f : plain f -> split_fields f = [f].
Proof.
  induction f as [|c f IH]; simpl; [done|].
  intros [Hc Hf]. by rewrite Hc, IH.
Qed.

Lemma split_fields_cons f rest :
  plain f ->
  split_fields (f +:+ String delimiter rest) = f :: split_fields rest.
Proof.
  induction f as [|c f IH]; simpl.
  - done.
  - intros [Hc Hf]. by rewrite Hc, IH.
Qed.

Lemma plain_digits d : plain (NilEmpty.string_of_uint d).
Proof. induction d; simpl; auto. Qed.

Lemma plain_render_id n : plain (render_id n).
Proof. apply plain_digits. Qed.

Lemma plain_render_parent p : plain (render_parent p).
Proof. destruct p; simpl; [apply plain_render_id | done]. Qed.

Lemma plain_render_sampled b : plain (render_sampled b).
Proof. by destruct b. Qed.

Lemma render_id_nonempty n : render_id n ≠ EmptyString.
Proof.
  unfold render_id. destruct n as [|p]; simpl; [done|].
  pose proof (Unsigned.to_uint_nonnil p) as Hnil.
  destruct (Pos.to_uint p); simpl; congruence.
Qed.

Lemma parse_render_id n : parse_id (render_id n) = Some n.
Proof.
  unfold parse_id. pose proof (render_id_nonempty n) as Hne.
  destruct (render_id n) eqn:E; [done|]. rewrite <- E. unfold render_id.
  rewrite NilEmpty.usu. simpl. by rewrite DecimalN.Unsigned.of_to.
Qed.

Lemma parse_render_parent p : parse_parent (render_parent p) = Some p.
Proof.
  destruct p as [n|]; simpl; [|done].
  unfold parse_parent. pose proof (render_id_nonempty n) as Hne.
  destruct (render_id n) eqn:E; [done|]. rewrite <- E.
  by rewrite parse_render_id.
Qed.

Lemma parse_render_sampled b : parse_sampled (render_sampled b) = Some b.
Proof. by destruct b. Qed.

Lemma split_identity_entry C :
  split_fields (identity_entry C) =
    [render_id (traceId C); render_id (spanId C);
     render_parent (parentId C); render_sampled (sampled C)].
Proof.
  unfold identity_entry. simpl.
  rewrite !split_fields_cons
    by auto using plain_render_id, plain_render_parent.
  by rewrite split_fields_plain by apply plain_render_sampled.
Qed.

End TextMapFacts.

Section TextMapRoundTrip.
Import Identity TextMap.

Lemma lookup_stripped L (l : list (string * string)) k :
  (list_to_map (omap (baggage_entry L) l) : gmap string string) !! k =
  (list_to_map l : gmap string string) !! (baggage_prefix L +:+ k).
Proof.
  induction l as [|[k0 v0] l IH]; simpl; [by rewrite !lookup_empty|].
  unfold baggage_entry at 1. simpl.
  destruct (strip_prefix (baggage_prefix L) k0) as [k'|] eqn:E; simpl.
  - apply strip_prefix_Some in E as ->.
    destruct (decide (k' = k)) as [->|Hne].
    + by rewrite !lookup_insert_eq.
    + rewrite !lookup_insert_ne; [done | | done].
      intros Heq. by apply (inj _) in Heq.
  - rewrite lookup_insert_ne; [done|].
    intros ->. by rewrite strip_prefix_app in E.
Qed.

Lemma lookup_extract_baggage L (carrier : gmap string string) k :
  extract_baggage L carrier !! k = carrier !! (baggage_prefix L +:+ k).
Proof.
  unfold extract_baggage. by rewrite lookup_stripped, list_to_map_to_list.
Qed.

Lemma extract_baggage_inject L C :
  well_formed L ->
  extract_baggage L (inject L C ∅) = baggage C.
Proof.
  intros Hwf. apply map_eq. intros k.
  rewrite lookup_extract_baggage. unfold inject.
  rewrite lookup_insert_ne.
  - by rewrite (right_id_L ∅ (∪)), (lookup_kmap _).
  - intros Heq. unfold well_formed in Hwf.
    by rewrite Heq, strip_prefix_app in Hwf.
Qed.

Lemma text_map_extract_inject L C :
  well_formed L -> extract L (inject L C ∅) = Some C.
Proof.
  intros Hwf. unfold extract.
  assert (inject L C ∅ !! identity_key L = Some (identity_entry C)) as ->
    by apply lookup_insert_eq.
  simpl. rewrite split_identity_entry.
  rewrite !parse_render_id, parse_render_parent, parse_render_sampled. simpl.
  rewrite (extract_baggage_inject L C Hwf). by destruct C.
Qed.

End TextMapRoundTrip.

(* ================================================================== *)
(** * Properties of the binary codec *)

Section Bytes.
Import Identity Binary.
Local Open Scope N_scope.

Lemma N_of_byte_of_N n : N_of_byte (byte_of_N n) = n mod 256.
Proof.
  unfold N_of_byte, byte_of_N.
  destruct (Byte.of_N (n mod 256)) as [b|] eqn:E; simpl.
  - by apply Byte.to_of_N.
  - apply Byte.of_N_None_iff in E.
    pose proof (N.mod_upper_bound n 256). lia.
Qed.

Lemma N_of_byte_small n : n < 256 -> N_of_byte (byte_of_N n) = n.
Proof. intros H. rewrite N_of_byte_of_N. by apply N.mod_small. Qed.

Lemma decode_be_acc width n acc :
  foldl (fun a b => a * 256 + N_of_byte b) acc (encode_be width n) =
  acc * 256 ^ N.of_nat width + n mod 256 ^ N.of_nat width.
Proof.
  revert acc. induction width as [|w IH]; intros acc.
  - simpl. rewrite N.mod_1_r. lia.
  - cbn [encode_be foldl]. rewrite IH, N_of_byte_of_N.
    rewrite Nat2N.inj_succ, N.pow_succ_r'.
    rewrite (N.mul_comm 256 (256 ^ N.of_nat w)).
    rewrite (N.Div0.mod_mul_r n (256 ^ N.of_nat w) 256). lia.
Qed.

Lemma decode_encode_be width n :
  n < 256 ^ N.of_nat width -> decode_be (encode_be width n) = n.
Proof.
  intros H. unfold decode_be. rewrite decode_be_acc.
  rewrite N.mod_small by done. lia.
Qed.

Lemma length_encode_be width n : length (encode_be width n) = width.
Proof. induction width; simpl; congruence. Qed.

End Bytes.

(** ** Reading back what was written *)
Section Decoding.
Import Identity Binary.

Lemma decodes_ret {A} (x : A) : decodes (ret x) [] x.
Proof. intros buf c suf _ _. exists c. split; [done | simpl; lia]. Qed.

Lemma decodes_bind {A B} (r : Reader A) (f : A -> Reader B) bs1 bs2 x y :
  decodes r bs1 x -> decodes (f x) bs2 y -> decodes (bind r f) (bs1 ++ bs2) y.
Proof.
  intros Hr Hf buf c suf Hpos Hdrop.
  rewrite <- (assoc_L (++)) in Hdrop.
  destruct (Hr buf c (bs2 ++ suf) Hpos Hdrop) as (c1 & Hrun & Hpos1).
  assert (length buf - pos c = length bs1 + length (bs2 ++ suf)) as Hlen
    by (rewrite <- length_drop, Hdrop; apply length_app).
  destruct (Hf buf c1 suf) as (c' & Hrun' & Hpos').
  - lia.
  - rewrite Hpos1, <- drop_drop, Hdrop. by rewrite drop_app_length.
  - exists c'. unfold bind. rewrite Hrun. split; [done|].
    rewrite length_app. lia.
Qed.

Lemma decodes_read_bytes bs :
  decodes (read_bytes (N.of_nat (length bs))) bs bs.
Proof.
  intros buf c suf Hpos Hdrop.
  assert (length buf - pos c = length bs + length suf) as Hlen
    by (rewrite <- length_drop, Hdrop; apply length_app).
  unfold read_bytes.
  destruct (N.leb_spec (N.of_nat (pos c) + N.of_nat (length bs))
                       (N.of_nat (length buf))) as [_|Hlt]; [|lia].
  rewrite Nat2N.id, Hdrop, take_app_length.
  eexists. split; [reflexivity | done].
Qed.

Lemma decodes_read_u8 b : decodes read_u8 [b] (N_of_byte b).
Proof.
  change [b] with ([b] ++ []).
  apply decodes_bind with (x := [b]); [apply (decodes_read_bytes [b])|].
  apply decodes_ret.
Qed.

Lemma decodes_read_u64 n :
  (n < 2 ^ 64)%N -> decodes read_u64 (encode_be 8 n) n.
Proof.
  intros Hn. rewrite <- (app_nil_r (encode_be 8 n)).
  apply decodes_bind with (x := encode_be 8 n).
  - pose proof (decodes_read_bytes (encode_be 8 n)) as H.
    by rewrite length_encode_be in H.
  - rewrite <- (decode_encode_be 8 n) at 2 by done. apply decodes_ret.
Qed.

Lemma decodes_varint_groups more : forall n fuel,
  (n < 128 * 2 ^ N.of_nat more)%N ->
  length (encode_varint_groups more n) <= fuel ->
  decodes (read_varint_groups fuel) (encode_varint_groups more n) n.
Proof.
  assert (Hlast : forall n fuel, (n < 128)%N -> 1 <= fuel ->
            decodes (read_varint_groups fuel) [byte_of_N n] n).
  { intros n [|f] Hn Hfuel; [lia|]. cbn [read_varint_groups].
    change [byte_of_N n] with ([byte_of_N n] ++ []).
    eapply decodes_bind; [apply decodes_read_u8|].
    rewrite N_of_byte_small by lia.
    destruct (N.ltb_spec n 128); [apply decodes_ret | lia]. }
  induction more as [|m IH]; intros n fuel Hn Hfuel.
  - simpl in *. apply Hlast; lia.
  - cbn [encode_varint_groups] in *.
    destruct (N.ltb_spec n 128) as [Hsmall|Hbig]; [apply Hlast; simpl in *; lia|].
    destruct fuel as [|f]; [simpl in Hfuel; lia|].
    cbn [read_varint_groups].
    change (?b :: ?rest) with ([b] ++ rest).
    eapply decodes_bind; [apply decodes_read_u8|].
    assert (n mod 128 < 128)%N as Hmod by (apply N.mod_upper_bound; lia).
    rewrite N_of_byte_small by lia.
    pose proof (N.le_0_l (n mod 128)) as Hmod0.
    destruct (N.ltb_spec (128 + n mod 128) 128) as [Hlt|Hge]; [lia|].
    rewrite <- (app_nil_r (encode_varint_groups m (n / 128))).
    eapply decodes_bind.
    + apply IH; [|simpl in Hfuel; lia].
      apply N.Div0.div_lt_upper_bound.
      rewrite Nat2N.inj_succ, N.pow_succ_r' in Hn. lia.
    + replace (128 + n mod 128 - 128 + 128 * (n / 128))%N with n; [apply decodes_ret|].
      rewrite (N.div_mod n 128) at 1 by lia. lia.
Qed.

Lemma decodes_read_varint n : decodes read_varint (encode_varint n) n.
Proof.
  intros buf c suf Hpos Hdrop. unfold read_varint.
  assert (length buf - pos c = length (encode_varint n) + length suf) as Hlen
    by (rewrite <- length_drop, Hdrop; apply length_app).
  unfold encode_varint in *.
  eapply decodes_varint_groups; [| lia | exact Hpos | exact Hdrop].
  rewrite N2Nat.id. destruct (N.eq_dec n 0%N) as [->|Hn]; [done|].
  pose proof (N.log2_spec n ltac:(lia)) as [_ Hup].
  rewrite N.pow_succ_r' in Hup. lia.
Qed.

Lemma decodes_read_string s : decodes read_string (encode_string s) s.
Proof.
  unfold read_string, encode_string.
  eapply decodes_bind; [apply decodes_read_varint|].
  rewrite <- (app_nil_r (list_byte_of_string s)) at 2.
  eapply decodes_bind; [apply decodes_read_bytes|].
  rewrite <- (string_of_list_byte_of_string s) at 2. apply decodes_ret.
Qed.

Lemma decodes_read_items items :
  decodes (read_items (length items)) (concat (encode_item <$> items)) items.
Proof.
  induction items as [|[k v] items IH]; [apply decodes_ret|].
  cbn [length read_items fmap list_fmap concat]. unfold encode_item at 1.
  cbn [fst snd]. rewrite <- (assoc_L (++)).
  eapply decodes_bind; [apply decodes_read_string|].
  eapply decodes_bind; [apply decodes_read_string|].
  rewrite <- (app_nil_r (concat _)).
  eapply decodes_bind; [apply IH|]. apply decodes_ret.
Qed.

Lemma N_of_encode_flag b : N_of_byte (encode_flag b) = if b then 1%N else 0%N.
Proof. by destruct b. Qed.

Lemma decodes_read_context C :
  (traceId C < 2 ^ 64)%N -> (spanId C < 2 ^ 64)%N ->
  (forall p, parentId C = Some p -> (p < 2 ^ 64)%N) ->
  decodes read_context (inject C) C.
Proof.
  intros Ht Hs Hp. unfold read_context, inject.
  eapply decodes_bind; [by apply decodes_read_u64|].
  eapply decodes_bind; [by apply decodes_read_u64|].
  eapply decodes_bind; [apply decodes_read_u8|].
  eapply decodes_bind.
  { apply decodes_read_u64. destruct (parentId C); simpl; [by apply Hp | done]. }
  eapply decodes_bind; [apply decodes_read_u8|].
  eapply decodes_bind; [apply decodes_read_varint|].
  rewrite <- (app_nil_r (concat _)).
  eapply decodes_bind; [rewrite Nat2N.id; apply decodes_read_items|].
  rewrite !N_of_encode_flag, list_to_map_to_list.
  replace (mkContext _ _ _ _ _) with C; [apply decodes_ret|].
  destruct C as [t s [p|] [|] b]; reflexivity.
Qed.

Lemma read_context_inject C :
  (traceId C < 2 ^ 64)%N -> (spanId C < 2 ^ 64)%N ->
  (forall p, parentId C = Some p -> (p < 2 ^ 64)%N) ->
  exists c, read_context (inject C) start = (c, Some C) /\
            pos c = length (inject C).
Proof.
  intros Ht Hs Hp.
  destruct (decodes_read_context C Ht Hs Hp (inject C) start []) as (c & Hrun & Hpos).
  - simpl. lia.
  - by rewrite app_nil_r.
  - exists c. split; [done|]. by rewrite Hpos.
Qed.

End Decoding.

(** ** Reads stay inside the buffer *)
Section Bounds.
Import Identity Binary.

Lemma safe_ret {A} (x : A) : safe (ret x).
Proof. by intros buf c H. Qed.

Lemma safe_fail {A} : safe (@fail A).
Proof. by intros buf c H. Qed.

Lemma safe_bind {A B} (r : Reader A) (f : A -> Reader B) :
  safe r -> (forall a, safe (f a)) -> safe (bind r f).
Proof.
  intros Hr Hf buf c H. unfold bind.
  specialize (Hr buf c H).
  destruct (r buf c) as [c1 [a|]]; [by apply Hf | done].
Qed.

Lemma safe_read_bytes n : safe (read_bytes n).
Proof.
  intros buf c H. unfold read_bytes.
  destruct (N.leb_spec (N.of_nat (pos c) + n) (N.of_nat (length buf)));
    [|done].
  simpl. constructor; [|done]. unfold in_bounds. simpl. lia.
Qed.

Lemma safe_read_u8 : safe read_u8.
Proof. apply safe_bind; [apply safe_read_bytes | intros; apply safe_ret]. Qed.

Lemma safe_read_u64 : safe read_u64.
Proof. apply safe_bind; [apply safe_read_bytes | intros; apply safe_ret]. Qed.

Lemma safe_read_varint_groups fuel : safe (read_varint_groups fuel).
Proof.
  induction fuel as [|f IH]; [apply safe_fail|].
  cbn [read_varint_groups]. apply safe_bind; [apply safe_read_u8|].
  intros b. destruct (b <? 128)%N; [apply safe_ret|].
  apply safe_bind; [apply IH | intros; apply safe_ret].
Qed.

Lemma safe_read_varint : safe read_varint.
Proof. intros buf c. apply safe_read_varint_groups. Qed.

Lemma safe_read_string : safe read_string.
Proof.
  apply safe_bind; [apply safe_read_varint|]. intros len.
  apply safe_bind; [apply safe_read_bytes | intros; apply safe_ret].
Qed.

Lemma safe_read_items count : safe (read_items count).
Proof.
  induction count as [|n IH]; [apply safe_ret|].
  cbn [read_items].
  apply safe_bind; [apply safe_read_string|]. intros k.
  apply safe_bind; [apply safe_read_string|]. intros v.
  apply safe_bind; [apply IH | intros; apply safe_ret].
Qed.

Lemma safe_read_context : safe read_context.
Proof.
  unfold read_context.
  repeat (apply safe_bind;
          [first [apply safe_read_u64 | apply safe_read_u8
                 | apply safe_read_varint | apply safe_read_items]
          | intros ?]).
  apply safe_ret.
Qed.

Lemma spans_ret {A} (x : A) : spans (ret x) 0.
Proof. intros buf c c' y [= <- _]. lia. Qed.

Lemma spans_bind {A B} (r : Reader A) (f : A -> Reader B) k1 k2 :
  spans r k1 -> (forall a, spans (f a) k2) -> spans (bind r f) (k1 + k2).
Proof.
  intros Hr Hf buf c c' y. unfold bind.
  destruct (r buf c) as [c1 [a|]] eqn:E; [|done].
  intros Hrun. destruct (Hr _ _ _ _ E), (Hf _ _ _ _ _ Hrun). lia.
Qed.

Lemma spans_weaken {A} (r : Reader A) k k' :
  k' <= k -> spans r k -> spans r k'.
Proof. intros Hle Hr buf c c' x Hrun. destruct (Hr _ _ _ _ Hrun). lia. Qed.

Lemma spans_read_bytes n : spans (read_bytes n) (N.to_nat n).
Proof.
  intros buf c c' x. unfold read_bytes.
  destruct (N.leb_spec (N.of_nat (pos c) + n) (N.of_nat (length buf)));
    [|done].
  intros [= <- _]. simpl. lia.
Qed.

Lemma spans_read_u8 : spans read_u8 1.
Proof.
  apply (spans_bind _ _ 1 0); [apply (spans_read_bytes 1) | intros; apply spans_ret].
Qed.

Lemma spans_read_u64 : spans read_u64 8.
Proof.
  apply (spans_bind _ _ 8 0); [apply (spans_read_bytes 8) | intros; apply spans_ret].
Qed.

Lemma spans_read_varint_groups fuel : spans (read_varint_groups fuel) 1.
Proof.
  induction fuel as [|f IH]; [by intros buf c c' x|].
  cbn [read_varint_groups].
  apply (spans_bind _ _ 1 0); [apply spans_read_u8|].
  intros b. destruct (b <? 128)%N; [apply spans_ret|].
  apply (spans_weaken _ (1 + 0)); [lia|].
  apply spans_bind; [apply IH | intros; apply spans_ret].
Qed.

Lemma spans_read_varint : spans read_varint 1.
Proof. intros buf c. apply spans_read_varint_groups. Qed.

Lemma spans_read_string : spans read_string 1.
Proof.
  apply (spans_bind _ _ 1 0); [apply spans_read_varint|]. intros len.
  apply (spans_weaken _ (N.to_nat len + 0)); [lia|].
  apply spans_bind; [apply spans_read_bytes | intros; apply spans_ret].
Qed.

Lemma spans_read_items count : spans (read_items count) 0.
Proof.
  induction count as [|n IH]; [apply spans_ret|].
  cbn [read_items].
  apply (spans_weaken _ (1 + (1 + (0 + 0)))); [lia|].
  apply spans_bind; [apply spans_read_string|]. intros k.
  apply spans_bind; [apply spans_read_string|]. intros v.
  apply spans_bind; [apply IH | intros; apply spans_ret].
Qed.

Lemma spans_read_context : spans read_context header_length.
Proof.
  unfold read_context.
  apply (spans_weaken _ (8 + (8 + (1 + (8 + (1 + (1 + (0 + 0)))))))); [done|].
  repeat (apply spans_bind;
          [first [apply spans_read_u64 | apply spans_read_u8
                 | apply spans_read_varint | apply spans_read_items]
          | intros ?]).
  apply spans_ret.
Qed.

End Bounds.

(** ** A reader depends only on the bytes it has read *)
Section Locality.
Import Identity Binary.

Lemma take_agree (n m : nat) (l l' : list Byte.byte) :
  n <= m -> take m l' = take m l -> take n l' = take n l.
Proof.
  intros Hle H.
  rewrite <- (Nat.min_l n m Hle), <- !take_take. by rewrite H.
Qed.

Lemma local_ret {A} (x : A) : local (ret x).
Proof. by intros buf c c' y [= <- <-] buf' _ _. Qed.

Lemma local_bind {A B} (r : Reader A) (f : A -> Reader B) k1 k2 :
  local r -> spans r k1 ->
  (forall a, local (f a)) -> (forall a, spans (f a) k2) ->
  local (bind r f).
Proof.
  intros Hr Sr Hf Sf buf c c' y. unfold bind.
  destruct (r buf c) as [c1 [a|]] eqn:E; [|done].
  intros Hrun buf' Htake Hlen.
  destruct (Sf _ _ _ _ _ Hrun) as [Hadv _].
  rewrite (Hr _ _ _ _ E buf').
  - by apply (Hf _ _ _ _ _ Hrun).
  - apply (take_agree _ (pos c')); [lia | done].
  - lia.
Qed.

Lemma local_read_bytes n : local (read_bytes n).
Proof.
  intros buf c c' x. unfold read_bytes.
  destruct (N.leb_spec (N.of_nat (pos c) + n) (N.of_nat (length buf)));
    [|done].
  intros [= <- <-] buf' Htake Hlen. simpl in *.
  destruct (N.leb_spec (N.of_nat (pos c) + n) (N.of_nat (length buf')));
    [|lia].
  by rewrite !take_drop_commute, Htake.
Qed.

Lemma local_read_u8 : local read_u8.
Proof.
  eapply local_bind;
    [apply local_read_bytes | apply spans_read_bytes
    | intros; apply local_ret | intros; apply spans_ret].
Qed.

Lemma local_read_u64 : local read_u64.
Proof.
  eapply local_bind;
    [apply local_read_bytes | apply spans_read_bytes
    | intros; apply local_ret | intros; apply spans_ret].
Qed.

(** For the variable-length integer the fuel changes with the buffer: a
    successful run needs no more fuel than the bytes it takes. *)
Lemma local_read_varint_groups fuel : forall buf c c' x,
  read_varint_groups fuel buf c = (c', Some x) ->
  forall buf' fuel',
    take (pos c') buf' = take (pos c') buf ->
    pos c' <= length buf' ->
    pos c' - pos c <= fuel' ->
    read_varint_groups fuel' buf' c = (c', Some x).
Proof.
  induction fuel as [|f IH]; intros buf c c' x; [done|].
  cbn [read_varint_groups]. unfold bind at 1.
  destruct (read_u8 buf c) as [c1 [b|]] eqn:E; [|done].
  intros Hrun buf' fuel' Htake Hlen Hfuel.
  destruct (spans_read_u8 _ _ _ _ E) as [Hadv _].
  assert (pos c1 <= pos c') as Hle.
  { destruct (b <? 128)%N; [by injection Hrun as <- _|].
    unfold bind in Hrun.
    destruct (read_varint_groups f buf c1) as [c2 [rest|]] eqn:E2; [|done].
    injection Hrun as <- _.
    destruct (spans_read_varint_groups _ _ _ _ _ E2). lia. }
  destruct fuel' as [|f']; [lia|].
  cbn [read_varint_groups]. unfold bind at 1.
  rewrite (local_read_u8 _ _ _ _ E buf');
    [| by apply (take_agree _ (pos c')) | lia].
  destruct (b <? 128)%N; [done|].
  unfold bind in *.
  destruct (read_varint_groups f buf c1) as [c2 [rest|]] eqn:E2; [|done].
  injection Hrun as <- <-.
  rewrite (IH _ _ _ _ E2 buf' f'); [done | done | done | lia].
Qed.

Lemma local_read_varint : local read_varint.
Proof.
  intros buf c c' x Hrun buf' Htake Hlen. unfold read_varint in *.
  apply (local_read_varint_groups _ _ _ _ _ Hrun); [done | done | lia].
Qed.

Lemma local_read_string : local read_string.
Proof.
  eapply local_bind;
    [apply local_read_varint | apply spans_read_varint | |].
  - intros len. eapply local_bind;
      [apply local_read_bytes | apply spans_read_bytes
      | intros; apply local_ret | intros; apply spans_ret].
  - intros len. apply (spans_weaken _ (N.to_nat len + 0)); [apply Nat.le_0_l|].
    apply spans_bind; [apply spans_read_bytes | intros; apply spans_ret].
Qed.

Lemma local_read_items count : local (read_items count).
Proof.
  induction count as [|n IH]; [apply local_ret|].
  cbn [read_items].
  eapply (local_bind _ _ 1 0);
    [apply local_read_string | apply spans_read_string | |].
  - intros k. eapply (local_bind _ _ 1 0);
      [apply local_read_string | apply spans_read_string | |].
    + intros v. eapply (local_bind _ _ 0 0);
        [apply IH | apply spans_read_items
        | intros; apply local_ret | intros; apply spans_ret].
    + intros v. apply (spans_bind _ _ 0 0);
        [apply spans_read_items | intros; apply spans_ret].
  - intros k. apply (spans_weaken _ (1 + (0 + 0))); [apply Nat.le_0_l|].
    apply spans_bind; [apply spans_read_string|]. intros v.
    apply spans_bind; [apply spans_read_items | intros; apply spans_ret].
Qed.

End Locality.

Section Truncation.
Import Identity Binary.

Lemma tidy_intro {A} (r : Reader A) k : local r -> spans r k -> tidy r.
Proof.
  intros Hl Hs. split; [done|]. apply (spans_weaken _ k); [lia | done].
Qed.

Lemma tidy_ret {A} (x : A) : tidy (ret x).
Proof. split; [apply local_ret | apply spans_ret]. Qed.

Lemma tidy_bind {A B} (r : Reader A) (f : A -> Reader B) :
  tidy r -> (forall a, tidy (f a)) -> tidy (bind r f).
Proof.
  intros [Hl Hs] Hf. split.
  - apply (local_bind _ _ 0 0); [done | done | apply Hf | apply Hf].
  - apply (spans_bind _ _ 0 0); [done | apply Hf].
Qed.

Lemma local_read_context : local read_context.
Proof.
  apply (proj1 (A := local read_context) (B := spans read_context 0)).
  change (tidy read_context). unfold read_context.
  repeat (apply tidy_bind;
          [first [ apply (tidy_intro _ _ local_read_u64 spans_read_u64)
                 | apply (tidy_intro _ _ local_read_u8 spans_read_u8)
                 | apply (tidy_intro _ _ local_read_varint spans_read_varint)
                 | apply (tidy_intro _ _ (local_read_items _) (spans_read_items _)) ]
          | intros ?]).
  apply tidy_ret.
Qed.

Lemma binary_extract_inject C :
  (traceId C < 2 ^ 64)%N -> (spanId C < 2 ^ 64)%N ->
  (forall p, parentId C = Some p -> (p < 2 ^ 64)%N) ->
  extract (inject C) = JS.Return C.
Proof.
  intros Ht Hs Hp. unfold extract.
  destruct (read_context_inject C Ht Hs Hp) as (c & -> & _). done.
Qed.

Lemma extract_short buf :
  length buf < header_length -> extract buf = JS.Raise JS.MalformedCarrier.
Proof.
  intros Hshort. unfold extract.
  destruct (read_context buf start) as [c [C|]] eqn:E; [|done].
  destruct (spans_read_context _ _ _ _ E) as [Hadv Hin].
  simpl in *. specialize (Hin ltac:(lia)). lia.
Qed.

Lemma extract_truncated C n :
  (traceId C < 2 ^ 64)%N -> (spanId C < 2 ^ 64)%N ->
  (forall p, parentId C = Some p -> (p < 2 ^ 64)%N) ->
  n < length (inject C) ->
  extract (take n (inject C)) = JS.Raise JS.MalformedCarrier.
Proof.
  intros Ht Hs Hp Hn. unfold extract.
  destruct (read_context (take n (inject C)) start) as [c [D|]] eqn:E; [|done].
  exfalso.
  destruct (spans_read_context _ _ _ _ E) as [_ Hin].
  specialize (Hin ltac:(simpl; lia)). rewrite length_take in Hin.
  assert (read_context (inject C) start = (c, Some D)) as Hfull.
  { apply (local_read_context _ _ _ _ E); [|lia].
    rewrite take_take. f_equal. lia. }
  destruct (read_context_inject C Ht Hs Hp) as (c' & Hrun & Hpos).
  rewrite Hrun in Hfull. injection Hfull as -> _. lia.
Qed.

Lemma read_string_overrun buf c c1 len :
  read_varint buf c = (c1, Some len) ->
  length buf < pos c1 + N.to_nat len ->
  read_string buf c = (c1, None).
Proof.
  intros Hlen Hover. unfold read_string, bind. rewrite Hlen.
  unfold read_bytes.
  destruct (N.leb_spec (N.of_nat (pos c1) + len) (N.of_nat (length buf)));
    [lia | done].
Qed.

Lemma extract_reads_in_bounds buf :
  Forall (in_bounds buf) (reads (read_context buf start).1).
Proof. apply safe_read_context. constructor. Qed.

End Truncation.

(* ================================================================== *)
(** * The codecs and the sampler behind the tracer *)

Section Examples.
Import Identity.

Lemma example_context_valid trace :
  is_id trace -> valid (example_context trace).
Proof.
  intros Ht. split; [exact Ht|]. split; [done|]. split.
  - by intros p [= <-].
  - apply map_Forall_insert_2; [done|]. by apply map_Forall_singleton.
Qed.

Example text_map_entries :
  map_to_list (TextMap.inject example_layout (example_context 1) ∅) =
    [("ot-baggage-ota", "v1"); ("ot-baggage-a", "1");
     ("ot-tracer-state", "1:300:7:1")].
Proof. vm_compute. reflexivity. Qed.

Example binary_empty_buffer :
  Binary.extract [] = JS.Raise JS.MalformedCarrier.
Proof. reflexivity. Qed.

Example binary_header_only :
  Binary.extract (take 26 (Binary.inject (example_context 1))) =
    JS.Raise JS.MalformedCarrier /\
  (Binary.read_context (take 26 (Binary.inject (example_context 1)))
     Binary.start).1 =
    {| Binary.pos := 26;
       Binary.reads := [(25, 1); (17, 8); (16, 1); (8, 8); (0, 8)] |}.
Proof. vm_compute. split; reflexivity. Qed.

(** A key declared six bytes long in a buffer that has two bytes left. *)
Example binary_declared_length_overrun :
  let buf := Binary.encode_be 8 1 ++ Binary.encode_be 8 2 ++
             [Byte.x00] ++ Binary.encode_be 8 0 ++ [Byte.x01] ++
             [Byte.x01; Byte.x06; Byte.x61; Byte.x62] in
  Binary.extract buf = JS.Raise JS.MalformedCarrier /\
  (Binary.read_context buf Binary.start).1 =
    {| Binary.pos := 28;
       Binary.reads := [(27, 1); (26, 1); (25, 1); (17, 8); (16, 1); (8, 8); (0, 8)] |}.
Proof. vm_compute. split; reflexivity. Qed.

End Examples.

(** C1.  For every valid context [C], either codec applied to [C] and an
    empty carrier and then read back returns [C] itself: same trace id,
    span id, parent id, sampled flag and baggage.  A context created from
    the decoded one with a fresh span id therefore has [C]'s trace id,
    sampled flag and baggage, and [C]'s span id as its parent id. *)
Theorem codecs_round_trip
    (L : TextMap.Layout) (C : Identity.SpanContext) (fresh : N) :
  TextMap.well_formed L ->
  Identity.valid C ->
  TextMap.extract L (TextMap.inject L C ∅) = Some C /\
  Binary.extract (Binary.inject C) = JS.Return C /\
  forall D,
    TextMap.extract L (TextMap.inject L C ∅) = Some D \/
    Binary.extract (Binary.inject C) = JS.Return D ->
    Identity.continues C (Identity.newChildContext fresh D).
Proof.
  intros Hwf (Ht & Hs & Hp & _).
  assert (Htext := text_map_extract_inject L C Hwf).
  assert (Hbinary : Binary.extract (Binary.inject C) = JS.Return C).
  { apply binary_extract_inject.
    - apply Ht.
    - apply Hs.
    - intros p Hsome. by apply Hp. }
  split; [done|]. split; [done|].
  intros D [HD|HD].
  - rewrite Htext in HD. injection HD as <-. by repeat split.
  - rewrite Hbinary in HD. injection HD as <-. by repeat split.
Qed.

(** The two boundary trace ids, 1 and 0xFFFFFFFFFFFFFFFE. *)
Lemma codecs_round_trip_witness :
  (TextMap.extract example_layout
     (TextMap.inject example_layout (example_context 1) ∅) =
     Some (example_context 1) /\
   Binary.extract (Binary.inject (example_context 1)) =
     JS.Return (example_context 1)) /\
  (TextMap.extract example_layout
     (TextMap.inject example_layout (example_context 18446744073709551614) ∅) =
     Some (example_context 18446744073709551614) /\
   Binary.extract (Binary.inject (example_context 18446744073709551614)) =
     JS.Return (example_context 18446744073709551614)).
Proof.
  split.
  - destruct (codecs_round_trip example_layout (example_context 1) 2
                eq_refl (example_context_valid 1 (conj eq_refl eq_refl)))
      as (Htext & Hbinary & _).
    exact (conj Htext Hbinary).
  - destruct (codecs_round_trip example_layout
                (example_context 18446744073709551614) 2
                eq_refl
                (example_context_valid 18446744073709551614
                   (conj eq_refl eq_refl)))
      as (Htext & Hbinary & _).
    exact (conj Htext Hbinary).
Defined.

(** C3.  On every buffer, each read the binary [extract] performs lies
    inside the buffer, and the only failure is [MalformedCarrier].  It
    fails so on a buffer shorter than the fixed fields and the count
    demand (the empty buffer included), on every proper prefix of the
    encoding of a valid context, and at a string whose declared length
    runs past the end of the buffer, where the decoding stops without
    reading. *)
Theorem binary_extract_bounds_checked (buf : list Byte.byte) :
  Forall (Binary.in_bounds buf)
         (Binary.reads (Binary.read_context buf Binary.start).1) /\
  (forall e, Binary.extract buf = JS.Raise e -> e = JS.MalformedCarrier) /\
  (length buf < Binary.header_length ->
   Binary.extract buf = JS.Raise JS.MalformedCarrier) /\
  (forall C n,
     Identity.valid C -> n < length (Binary.inject C) ->
     buf = take n (Binary.inject C) ->
     Binary.extract buf = JS.Raise JS.MalformedCarrier) /\
  (forall c c1 len,
     Binary.read_varint buf c = (c1, Some len) ->
     length buf < Binary.pos c1 + N.to_nat len ->
     Binary.read_string buf c = (c1, None)).
Proof.
  split; [apply extract_reads_in_bounds|].
  split.
  { intros e. unfold Binary.extract.
    destruct (Binary.read_context buf Binary.start).2; congruence. }
  split; [apply extract_short|].
  split.
  - intros C n (Ht & Hs & Hp & _) Hn ->.
    apply extract_truncated; [apply Ht | apply Hs | | done].
    intros p Hsome. by apply Hp.
  - intros c c1 len. apply read_string_overrun.
Qed.

(** A failure of the binary propagator is not caught on the way: [join]
    on the binary format ends with the propagator's error. *)
Lemma join_binary_failure_surfaces
    (W : Type) (h : Effect.Handler W) (w w' : W) (this : BasicTracer)
    (inf : Interface) (operationName carrier : JS.Value) (e : JS.Error) :
  _interface this = Some inf ->
  FORMAT_TEXT_MAP inf ≠ FORMAT_BINARY inf ->
  h (Effect.BinaryJoin this operationName carrier) w = (JS.Raise e, w') ->
  Effect.outcome
    (Effect.run h
       (Tracer.join this operationName (JS.Str (FORMAT_BINARY inf)) carrier) w) =
  JS.Raise e.
Proof.
  intros Hinf Hne Hcall. unfold Tracer.join, Tracer.interface_token.
  rewrite Hinf. simpl.
  destruct (String.eqb (FORMAT_BINARY inf) (FORMAT_TEXT_MAP inf)) eqn:E.
  { apply String.eqb_eq in E. congruence. }
  rewrite String.eqb_refl. simpl. by rewrite Hcall.
Qed.





(* ================================================================== *)
(** * Further properties of the tracer and the span *)

Section Composition.
Import JS Effect.

(** A run of [p ≫= f] is the run of [p] followed, when [p] returns, by the
    run of [f] on its value. *)
Lemma run_bind {W A B} (h : Handler W) (p : Prog A) (f : A -> Prog B) w :
  run h (p ≫= f) w =
    match outcome (run h p w) with
    | Return a =>
        let r := run h (f a) (world (run h p w)) in
        mkRun (outcome r) (world r) (trace (run h p w) ++ trace r)
    | Raise e => mkRun (Raise e) (world (run h p w)) (trace (run h p w))
    end.
Proof.
  revert w. induction p as [a|e|c k IH]; intros w; simpl.
  - by destruct (run h (f a) w).
  - reflexivity.
  - destruct (h c w) as [[v|e] w']; simpl; [|reflexivity].
    change (bind (k v) f) with (k v ≫= f). rewrite IH.
    by destruct (outcome (run h (k v) w')).
Qed.

Lemma invoke_inert this c : invoke this c = Ret (answer_of this c, this).
Proof. by destruct c. Qed.

(** A session is a program without calls that returns the span it was
    given. *)
Lemma session_pure this calls :
  session this calls = Ret (answer_of this <$> calls, this).
Proof.
  induction calls as [|c rest IH]; [reflexivity|].
  cbn [session]. rewrite invoke_inert. simpl. by rewrite IH.
Qed.


(** The method calls add nothing to the run of [startSpan]. *)
Lemma lifecycle_run {W} (h : Handler W) w this fields calls :
  run h (lifecycle this fields calls) w =
    let r := run h (Tracer.startSpan this fields) w in
    match outcome r with
    | Return (span, _) =>
        mkRun (Return (answer_of span <$> calls, span)) (world r) (trace r)
    | Raise e => mkRun (Raise e) (world r) (trace r)
    end.
Proof.
  unfold lifecycle. rewrite run_bind. simpl.
  destruct (outcome (run h (Tracer.startSpan this fields) w)) as [[span fields']|e];
    [|reflexivity].
  rewrite session_pure. simpl. by rewrite app_nil_r.
Qed.

End Composition.

(** X1.  Whatever methods are called on a span, in whatever order and with
    whatever arguments, the calls reach no collaborator, leave the world
    and the span as they were, and return [undefined], except [tracer()],
    which returns the span's tracer.  In particular [getBaggageItem] after
    [setBaggageItem] returns [undefined], and [finish] records nothing. *)
Theorem span_methods_inert
    (W : Type) (h : Effect.Handler W) (w : W) (this : BasicSpan)
    (calls : list SpanCall) :
  Effect.run h (session this calls) w =
    Effect.mkRun (JS.Return (answer_of this <$> calls, this)) w [].
Proof. by rewrite session_pure. Qed.


(** X3.  A span remembers the tracer that created it: after [startSpan] and
    any method calls on the span it returned, [tracer()] returns the tracer
    on which [startSpan] was called, and the span is still the object the
    constructor built. *)
Theorem tracer_returns_creator
    (W : Type) (h : Effect.Handler W) (w : W) (this : BasicTracer)
    (fields : JS.Value) (calls : list SpanCall) :
  match Effect.outcome
          (Effect.run h (lifecycle this fields (calls ++ [CallTracer])) w) with
  | JS.Return (answers, span) =>
      last answers = Some (JS.TracerRef this) /\ span = mkSpan this
  | JS.Raise _ => True
  end.
Proof.
  rewrite lifecycle_run. simpl.
  destruct (startSpan_run W h w this fields) as [_ Hspan].
  destruct (Effect.outcome _) as [[span fields']|e] eqn:E; simpl; [|done].
  rewrite (Hspan span fields' eq_refl).
  rewrite fmap_app.
  change (answer_of (mkSpan this) <$> [CallTracer]) with [JS.TracerRef this].
  by rewrite last_snoc.
Qed.

Section Dispatch.
Import JS Effect.

(** One call to a collaborator: its completion, its world, and the call as
    the whole trace. *)
Lemma run_call {W} (h : Handler W) (c : Call) w :
  run h (call c) w = mkRun (h c w).1 (h c w).2 [c].
Proof. unfold call. simpl. by destruct (h c w) as [[v|e] w']. Qed.

Lemma run_call_discard {W} (h : Handler W) (c : Call) w :
  run h (call c ;; Ret Undefined) w = mkRun (discard_value (h c w).1) (h c w).2 [c].
Proof. unfold call. simpl. by destruct (h c w) as [[v|e] w']. Qed.

(** [setInterface] touches neither collaborator, and the interface in
    force is the one installed last. *)
Lemma configured_fields sampler recorder interfaces :
  _sampler (configured sampler recorder interfaces) =
    from_option Supplied DefaultInstance sampler /\
  _recorder (configured sampler recorder interfaces) =
    from_option Supplied DefaultInstance recorder /\
  _interface (configured sampler recorder interfaces) = last interfaces.
Proof.
  unfold configured.
  induction interfaces as [|inf rest IH] using rev_ind; [done|].
  rewrite foldl_app. simpl. rewrite last_snoc.
  destruct IH as (Hs & Hr & _). done.
Qed.

End Dispatch.

(** X4.  A tracer on which [setInterface] was never called cannot inject or
    join: for every format, [inject] and [join] throw a TypeError before
    any propagator is called. *)
Theorem inject_join_need_interface
    (W : Type) (h : Effect.Handler W) (w : W) (sampler recorder : option nat)
    (span operationName format carrier : JS.Value) :
  Effect.run h (Tracer.inject (Tracer.new sampler recorder) span format carrier) w =
    Effect.mkRun (JS.Raise JS.TypeError) w [] /\
  Effect.run h (Tracer.join (Tracer.new sampler recorder) operationName format carrier) w =
    Effect.mkRun (JS.Raise JS.TypeError) w [].
Proof. split; reflexivity. Qed.

(** X5.  [inject] with the text-map token makes exactly one call, to the
    text-map propagator with the span and the carrier it was given; with
    the binary token, when it differs from the text-map token, exactly one
    call to the binary propagator.  What the propagator returns is
    dropped, [inject] returns [undefined]; an error of the propagator is
    the error of [inject]. *)
Theorem inject_dispatch
    (W : Type) (h : Effect.Handler W) (w : W) (this : BasicTracer)
    (inf : Interface) (span carrier : JS.Value) :
  _interface this = Some inf ->
  (let c := Effect.TextMapInject this span carrier in
   Effect.run h (Tracer.inject this span (JS.Str (FORMAT_TEXT_MAP inf)) carrier) w =
     Effect.mkRun (discard_value (h c w).1) (h c w).2 [c]) /\
  (FORMAT_BINARY inf ≠ FORMAT_TEXT_MAP inf ->
   let c := Effect.BinaryInject this span carrier in
   Effect.run h (Tracer.inject this span (JS.Str (FORMAT_BINARY inf)) carrier) w =
     Effect.mkRun (discard_value (h c w).1) (h c w).2 [c]).
Proof.
  intros Hinf. unfold Tracer.inject, Tracer.interface_token. rewrite Hinf.
  split.
  - simpl. rewrite String.eqb_refl. apply run_call_discard.
  - intros Hne. simpl.
    destruct (String.eqb (FORMAT_BINARY inf) (FORMAT_TEXT_MAP inf)) eqn:E.
    { apply String.eqb_eq in E. contradiction. }
    rewrite String.eqb_refl. apply run_call_discard.
Qed.

Lemma inject_dispatch_witness :
  let this := Tracer.setInterface (Tracer.new None None)
                (mkInterface "text_map" "binary") in
  let span := JS.SpanRef (mkSpan this) in
  let carrier := JS.Object [] in
  Effect.run clock_only (Tracer.inject this span (JS.Str "text_map") carrier) 0%Z =
    Effect.mkRun (JS.Return JS.Undefined) 0%Z
      [Effect.TextMapInject this span carrier] /\
  Effect.run clock_only (Tracer.inject this span (JS.Str "binary") carrier) 0%Z =
    Effect.mkRun (JS.Return JS.Undefined) 0%Z
      [Effect.BinaryInject this span carrier].
Proof.
  intros this span carrier.
  destruct (inject_dispatch Z clock_only 0%Z this (mkInterface "text_map" "binary")
              span carrier eq_refl) as [Htext Hbinary].
  split; [exact Htext | apply Hbinary; discriminate].
Defined.

(** X6.  [join] with the text-map token makes exactly one call, to the
    text-map propagator with the operation name and the carrier it was
    given, and returns what the propagator returns, value or error, as it
    is; with the binary token, when it differs from the text-map token, the
    same holds for the binary propagator. *)
Theorem join_dispatch
    (W : Type) (h : Effect.Handler W) (w : W) (this : BasicTracer)
    (inf : Interface) (operationName carrier : JS.Value) :
  _interface this = Some inf ->
  (let c := Effect.TextMapJoin this operationName carrier in
   Effect.run h (Tracer.join this operationName (JS.Str (FORMAT_TEXT_MAP inf)) carrier) w =
     Effect.mkRun (h c w).1 (h c w).2 [c]) /\
  (FORMAT_BINARY inf ≠ FORMAT_TEXT_MAP inf ->
   let c := Effect.BinaryJoin this operationName carrier in
   Effect.run h (Tracer.join this operationName (JS.Str (FORMAT_BINARY inf)) carrier) w =
     Effect.mkRun (h c w).1 (h c w).2 [c]).
Proof.
  intros Hinf. unfold Tracer.join, Tracer.interface_token. rewrite Hinf.
  split.
  - simpl. rewrite String.eqb_refl. apply run_call.
  - intros Hne. simpl.
    destruct (String.eqb (FORMAT_BINARY inf) (FORMAT_TEXT_MAP inf)) eqn:E.
    { apply String.eqb_eq in E. contradiction. }
    rewrite String.eqb_refl. apply run_call.
Qed.

Lemma join_dispatch_witness :
  let this := Tracer.setInterface (Tracer.new None None)
                (mkInterface "text_map" "binary") in
  let carrier := JS.Object [] in
  Effect.run clock_only (Tracer.join this (JS.Str "op-b") (JS.Str "text_map") carrier) 0%Z =
    Effect.mkRun (JS.Return JS.Undefined) 0%Z
      [Effect.TextMapJoin this (JS.Str "op-b") carrier] /\
  Effect.run clock_only (Tracer.join this (JS.Str "op-b") (JS.Str "binary") carrier) 0%Z =
    Effect.mkRun (JS.Return JS.Undefined) 0%Z
      [Effect.BinaryJoin this (JS.Str "op-b") carrier].
Proof.
  intros this carrier.
  destruct (join_dispatch Z clock_only 0%Z this (mkInterface "text_map" "binary")
              (JS.Str "op-b") carrier eq_refl) as [Htext Hbinary].
  split; [exact Htext | apply Hbinary; discriminate].
Defined.

(** X7.  [record] does not shield its caller from the recorder: when the
    recorder throws, [record] ends with the same error; when it returns,
    whatever it returns, [record] returns [undefined].  The world is the
    one the recorder left. *)
Theorem record_completion
    (W : Type) (h : Effect.Handler W) (w : W) (this : BasicTracer) (span : JS.Value) :
  let c := Effect.RecorderRecord (_recorder this) span in
  Effect.outcome (Effect.run h (Tracer.record this span) w) = discard_value (h c w).1 /\
  Effect.world (Effect.run h (Tracer.record this span) w) = (h c w).2.
Proof.
  intros c. unfold Tracer.record. by rewrite run_call_discard.
Qed.

(** X8.  The collaborators given to the constructor stay in place: after
    any number of [setInterface] calls, [isSample] consults the sampler the
    constructor received (the default one when none was given) with the
    span and the parent unchanged and returns its completion as it is,
    [record] calls the recorder the constructor received, and the interface
    in force is the one installed last. *)
Theorem configured_tracer_wiring
    (W : Type) (h : Effect.Handler W) (w : W) (sampler recorder : option nat)
    (interfaces : list Interface) (span parent : JS.Value) :
  let this := configured sampler recorder interfaces in
  let ask := Effect.SamplerIsSample
               (from_option Supplied DefaultInstance sampler) span parent in
  Effect.run h (Tracer.isSample this span parent) w =
    Effect.mkRun (h ask w).1 (h ask w).2 [ask] /\
  Effect.trace (Effect.run h (Tracer.record this span) w) =
    [Effect.RecorderRecord (from_option Supplied DefaultInstance recorder) span] /\
  _interface this = last interfaces.
Proof.
  intros this ask. subst this ask.
  destruct (configured_fields sampler recorder interfaces) as (Hs & Hr & Hi).
  unfold Tracer.isSample, Tracer.record.
  rewrite run_call, run_call_discard, Hs, Hr. by repeat split.
Qed.

Section StartSpanRuns.
Import JS Effect.

Lemma get_defined v name :
  nullish v = false -> exists x, get v name = Return x.
Proof. destruct v; simpl; intros H; try discriminate; eauto. Qed.


Lemma get_returns v name x : get v name = Return x -> nullish v = false.
Proof. by destruct v. Qed.

(** The first statement of [startSpan] calls nothing, so it either ends
    normally or throws. *)
Lemma resolve_parent_cases fields :
  (exists fields1, Tracer.resolve_parent fields = Ret fields1) \/
  (exists e, Tracer.resolve_parent fields = Throw e).
Proof.
  pose proof (silent_resolve_parent fields) as Hs.
  destruct (Tracer.resolve_parent fields) as [fields1|e|c k];
    [eauto | eauto | contradiction].
Qed.

(** When it ends normally, the object it leaves has properties and differs
    from [fields] in [parent] at most. *)
Lemma resolve_parent_result fields fields1 :
  Tracer.resolve_parent fields = Ret fields1 ->
  nullish fields = false /\
  nullish fields1 = false /\
  (forall name, name ≠ "parent" -> get fields1 name = get fields name) /\
  ((forall parent r, get fields "parent" = Return parent ->
                     get parent "imp" ≠ Return (Function r)) ->
   fields1 = fields).
Proof.
  unfold Tracer.resolve_parent.
  destruct (get fields "parent") as [parent|e] eqn:Hparent; simpl; [|discriminate].
  pose proof (get_returns _ _ _ Hparent) as Hdef.
  destruct (truthy parent) eqn:Ht; [|by intros [= <-]].
  destruct (get_truthy parent "imp" Ht) as [imp Himp]. rewrite Himp. simpl.
  destruct (String.eqb (typeof imp) "function") eqn:Hf; [|by intros [= <-]].
  destruct (call0 imp) as [r|e] eqn:Hcall; simpl; [|discriminate].
  destruct (set fields "parent" r) as [fields2|e] eqn:Hset; simpl; [|discriminate].
  intros [= <-]. split; [done|]. split; [|split].
  - destruct (set_defined _ _ _ _ Hset) as [y Hy]. by apply (get_returns _ _ _ Hy).
  - intros name Hname. by apply (set_get_ne _ _ _ _ _ Hset).
  - intros Hnone. exfalso.
    destruct (typeof_function imp Hf) as [[r0 ->]|[e ->]]; [|discriminate Hcall].
    exact (Hnone parent r0 eq_refl Himp).
Qed.


(** [startSpan], once its first statement has ended normally: the clock is
    read when [startTime] is [undefined], and the span and the resolved
    fields are returned. *)
Lemma startSpan_program this fields fields1 :
  Tracer.resolve_parent fields = Ret fields1 ->
  exists given,
    get fields "startTime" = Return given /\
    Tracer.startSpan this fields =
      match given with
      | Undefined => Vis DateNow (fun _ => Ret (mkSpan this, fields1))
      | _ => Ret (mkSpan this, fields1)
      end.
Proof.
  intros Hresolve.
  destruct (resolve_parent_result _ _ Hresolve) as (Hdef & Hdef1 & Hframe & _).
  destruct (get_defined fields1 "parent" Hdef1) as [parent Hparent].
  destruct (get_defined fields "startTime" Hdef) as [given Hgiven].
  exists given. split; [done|].
  unfold Tracer.startSpan, Tracer.startSpan_with. rewrite Hresolve. simpl.
  rewrite (span_fields_given _ _ Hparent). simpl.
  unfold constructor_argument. rewrite BasicSpan_new_object. simpl.
  unfold property. rewrite (Hframe "startTime") by discriminate.
  rewrite Hgiven. by destruct given.
Qed.

Lemma startSpan_throws this fields e :
  Tracer.resolve_parent fields = Throw e ->
  Tracer.startSpan this fields = Throw e.
Proof.
  intros Hresolve. unfold Tracer.startSpan, Tracer.startSpan_with.
  by rewrite Hresolve.
Qed.

(** A call of [startSpan] that returns has resolved its [fields]. *)
Lemma startSpan_returns {W} (h : Handler W) w this fields span fields' :
  outcome (run h (Tracer.startSpan this fields) w) = Return (span, fields') ->
  Tracer.resolve_parent fields = Ret fields'.
Proof.
  destruct (resolve_parent_cases fields) as [[fields1 Hresolve]|[e Hresolve]].
  - destruct (startSpan_program this fields fields1 Hresolve) as (given & _ & ->).
    intros Hrun. rewrite Hresolve.
    destruct given; simpl in Hrun; try (by injection Hrun as _ ->).
    destruct (h DateNow w) as [[v|e] w']; simpl in Hrun; [|done].
    by injection Hrun as _ ->.
  - by rewrite (startSpan_throws _ _ _ Hresolve).
Qed.

End StartSpanRuns.





(** X11.  [startSpan] writes to the caller's [fields] object, and to its
    [parent] property only: every other property reads after the call as
    it did before, and when [fields.parent] has no function-valued [imp]
    the object is not written to at all. *)
Theorem startSpan_writes_parent_only
    (W : Type) (h : Effect.Handler W) (w : W) (this : BasicTracer)
    (fields fields' : JS.Value) (span : BasicSpan) :
  Effect.outcome (Effect.run h (Tracer.startSpan this fields) w) =
    JS.Return (span, fields') ->
  (forall name, name ≠ "parent" -> JS.get fields' name = JS.get fields name) /\
  ((forall parent r, JS.get fields "parent" = JS.Return parent ->
                     JS.get parent "imp" ≠ JS.Return (JS.Function r)) ->
   fields' = fields).
Proof.
  intros Hrun.
  destruct (resolve_parent_result _ _ (startSpan_returns h w this fields span fields' Hrun))
    as (_ & _ & Hframe & Hsame).
  by split.
Qed.

Lemma startSpan_writes_parent_only_witness :
  let this := Tracer.new None None in
  let impl := JS.Object [("traceId", JS.Number 7)] in
  let fields := JS.Object [("operationName", JS.Str "op-b");
                           ("parent", JS.Object [("imp", JS.Function impl)]);
                           ("requestId", JS.Number 99)] in
  let fields' := JS.Object [("operationName", JS.Str "op-b");
                            ("parent", impl);
                            ("requestId", JS.Number 99)] in
  (forall name, name ≠ "parent" -> JS.get fields' name = JS.get fields name) /\
  ((forall parent r, JS.get fields "parent" = JS.Return parent ->
                     JS.get parent "imp" ≠ JS.Return (JS.Function r)) ->
   fields' = fields).
Proof.
  intros this impl fields fields'.
  exact (startSpan_writes_parent_only Z clock_only 0%Z this fields fields'
           (mkSpan this) eq_refl).
Defined.

(** X12.  A span is used as a parent as it is: [BasicSpan] has no [imp]
    method, so [startSpan] with a span in [fields.parent] does not write to
    [fields]; provided the clock answers, it returns the new span and the
    object unchanged. *)
Theorem span_parent_used_as_given
    (W : Type) (h : Effect.Handler W) (w : W) (this : BasicTracer)
    (props : list (string * JS.Value)) (parent : BasicSpan) :
  JS.assoc "parent" props = JS.SpanRef parent ->
  (exists now w', h Effect.DateNow w = (JS.Return now, w')) ->
  Effect.outcome (Effect.run h (Tracer.startSpan this (JS.Object props)) w) =
    JS.Return (mkSpan this, JS.Object props).
Proof.
  intros Hparent (now & w' & Hclock).
  assert (Hresolve : Tracer.resolve_parent (JS.Object props) = Effect.Ret (JS.Object props)).
  { apply (resolve_parent_unchanged (JS.Object props) (JS.SpanRef parent)).
    - simpl. by rewrite Hparent.
    - intros imp Himp. simpl in Himp. by injection Himp as <-. }
  destruct (startSpan_program this _ _ Hresolve) as (given & _ & ->).
  destruct given; simpl; try reflexivity. by rewrite Hclock.
Qed.

Lemma span_parent_used_as_given_witness :
  let this := Tracer.new None None in
  let props := [("operationName", JS.Str "op-b");
                ("parent", JS.SpanRef (mkSpan this))] in
  Effect.outcome (Effect.run clock_only (Tracer.startSpan this (JS.Object props)) 0%Z) =
    JS.Return (mkSpan this, JS.Object props).
Proof.
  intros this props.
  apply (span_parent_used_as_given Z clock_only 0%Z this props (mkSpan this));
    [reflexivity | by exists (JS.Number 0), 1%Z].
Defined.
